(** * learn_react_native: the theming hooks and the project-reset script

  A shallow embedding of the executable fragments of the repository:

  - [hooks/useColorScheme.ts], [hooks/useColorScheme.web.ts] and
    [hooks/useThemeColor.ts], together with the [Colors] table of
    [constants/Colors.ts];
  - [scripts/reset-project.js]: the interpretation of the confirmation
    line, the constants [oldDirs], [exampleDir], [newAppDir],
    [indexContent], [layoutContent] and the [try]/[catch] wrapper.

  JavaScript strings are sequences of UTF-16 code units.  A [string] here
  is a sequence of code units below 256 (the Latin-1 range), one [ascii]
  per code unit; on that range [String.prototype.trim] and
  [String.prototype.toLowerCase] are given exactly. *)

From Stdlib Require Import ZArith NArith Ascii String.
From stdpp Require Import gmap strings list fin_maps.

Set Warnings "-register-all".
Local Open Scope string_scope.

(** ** JavaScript string primitives *)

Module JS.

Definition code (c : ascii) : N := N_of_ascii c.

(** [WhiteSpace] and [LineTerminator] code points below 256: TAB, LF, VT,
    FF, CR, SP and NBSP.  These are what [trim] strips. *)
Definition isWhiteSpace (c : ascii) : bool :=
  (((9 <=? code c) && (code c <=? 13)) || (code c =? 32) || (code c =? 160))%N.

(** Code points below 256 that have a lowercase mapping: [A]..[Z] and the
    Latin-1 capitals U+00C0..U+00DE except the multiplication sign U+00D7. *)
Definition isUpper (c : ascii) : bool :=
  (((65 <=? code c) && (code c <=? 90))
   || ((192 <=? code c) && (code c <=? 214))
   || ((216 <=? code c) && (code c <=? 222)))%N.

Definition toLowerChar (c : ascii) : ascii :=
  if isUpper c then ascii_of_N (code c + 32) else c.

Fixpoint toLowerCase (s : string) : string :=
  match s with
  | EmptyString => EmptyString
  | String c s' => String (toLowerChar c) (toLowerCase s')
  end.

Fixpoint trimStart (s : string) : string :=
  match s with
  | EmptyString => EmptyString
  | String c s' => if isWhiteSpace c then trimStart s' else s
  end.

Fixpoint trimEnd (s : string) : string :=
  match s with
  | EmptyString => EmptyString
  | String c s' =>
      match trimEnd s' with
      | EmptyString => if isWhiteSpace c then EmptyString else String c EmptyString
      | t => String c t
      end
  end.

Definition trim (s : string) : string := trimEnd (trimStart s).

(** Truthiness of a string: every string but the empty one. *)
Definition truthy (s : string) : bool :=
  match s with EmptyString => false | _ => true end.

(** [a || b] on strings. *)
Definition or_else (a b : string) : string := if truthy a then a else b.

(** A string made of white space only. *)
Fixpoint blank (s : string) : bool :=
  match s with
  | EmptyString => true
  | String c s' => isWhiteSpace c && blank s'
  end.

(** Two code units that differ at most in letter case. *)
Definition sameLetter (c d : ascii) : Prop :=
  c = d
  \/ (isUpper c = true /\ code d = (code c + 32)%N)
  \/ (isUpper d = true /\ code c = (code d + 32)%N).

(** Two strings that differ at most in letter case. *)
Inductive sameLetters : string -> string -> Prop :=
| sameLetters_nil : sameLetters EmptyString EmptyString
| sameLetters_cons c d s t :
    sameLetter c d -> sameLetters s t -> sameLetters (String c s) (String d t).

End JS.

(** ** scripts/reset-project.js: the confirmation line *)

Module Prompt.

Definition question : string :=
  "Do you want to move existing files to /app-example instead of deleting them? (Y/n): ".

(** [const userInput = answer.trim().toLowerCase() || "y";] *)
Definition userInput (answer : string) : string :=
  JS.or_else (JS.toLowerCase (JS.trim answer)) "y".

End Prompt.


(** ** constants/Colors.ts and the theming hooks *)

Module Theme.

(** The values of [ColorSchemeName] other than [null] and [undefined]; the
    framework primitive [useColorScheme] of [react-native] returns an
    [option ColorScheme], [None] standing for [null] or [undefined]. *)
Inductive ColorScheme : Type := light | dark.

(** [keyof typeof Colors.light & keyof typeof Colors.dark] *)
Inductive ColorName : Type :=
| text | background | tint | icon | tabIconDefault | tabIconSelected.

(** [export const Colors = { light: {...}, dark: {...} }] *)
Definition Colors (theme : ColorScheme) (colorName : ColorName) : string :=
  match theme, colorName with
  | light, text => "#11181C"
  | light, background => "#fff"
  | light, tint => "#0a7ea4"
  | light, icon => "#687076"
  | light, tabIconDefault => "#687076"
  | light, tabIconSelected => "#0a7ea4"
  | dark, text => "#ECEDEE"
  | dark, background => "#151718"
  | dark, tint => "#fff"
  | dark, icon => "#9BA1A6"
  | dark, tabIconDefault => "#9BA1A6"
  | dark, tabIconSelected => "#fff"
  end.

(** hooks/useColorScheme.ts: [export { useColorScheme } from 'react-native';]
    The argument is what the primitive returns in the current render. *)
Definition useColorScheme (useRNColorScheme : option ColorScheme)
  : option ColorScheme := useRNColorScheme.

(** hooks/useColorScheme.web.ts.  The hook owns one state cell,
    [hasHydrated], created by [useState(false)], and one mount effect,
    [useEffect(() => setHasHydrated(true), [])].  [None] is the instance
    before its first render; [Some h] a mounted instance whose cell holds
    [h]. *)
Definition HookCell : Type := option bool.

(** The value of [hasHydrated] read by a render. *)
Definition hasHydrated (cell : HookCell) : bool :=
  match cell with
  | None => false            (* useState(false) *)
  | Some h => h
  end.

(** The cell once the render has been committed: the mount effect runs after
    the first render only (its dependency list is empty) and sets the cell. *)
Definition commit (cell : HookCell) : HookCell :=
  match cell with
  | None => Some true        (* setHasHydrated(true) *)
  | Some h => Some h
  end.

(** One render of the web variant: the returned value and the next cell. *)
Definition useColorScheme_web (cell : HookCell)
  (useRNColorScheme : option ColorScheme) : option ColorScheme * HookCell :=
  let colorScheme := useRNColorScheme in
  (if hasHydrated cell then colorScheme else Some light, commit cell).

(** Successive renders of one component instance, the primitive returning
    the given values in turn. *)
Fixpoint renders (cell : HookCell) (rn : list (option ColorScheme))
  : list (option ColorScheme) :=
  match rn with
  | [] => []
  | v :: rn' =>
      let '(r, cell') := useColorScheme_web cell v in r :: renders cell' rn'
  end.

(** [props: { light?: string; dark?: string }] *)
Record ThemeProps : Type := { p_light : option string; p_dark : option string }.

(** [props[theme]] *)
Definition prop (props : ThemeProps) (theme : ColorScheme) : option string :=
  match theme with light => p_light props | dark => p_dark props end.

(** [useColorScheme() ?? 'light'] *)
Definition themeOf (colorScheme : option ColorScheme) : ColorScheme :=
  match colorScheme with Some t => t | None => light end.

(** hooks/useThemeColor.ts; [colorScheme] is what [useColorScheme()]
    returned.  [if (colorFromProps)] tests truthiness: an absent property
    and the empty string both take the [else] branch. *)
Definition useThemeColor (colorScheme : option ColorScheme)
  (props : ThemeProps) (colorName : ColorName) : string :=
  let theme := themeOf colorScheme in
  let colorFromProps := prop props theme in
  match colorFromProps with
  | Some c => if JS.truthy c then c else Colors theme colorName
  | None => Colors theme colorName
  end.

End Theme.

(** ** The project tree and the file-system calls of the script *)

Module Fs.

(** A file with its content, or a directory with its entries by name. *)
Inductive node : Type :=
| File (content : string)
| Directory (entries : gmap string node).

(** The entries of the project root. *)
Abbreviation tree := (gmap string node).

(** The node a path leads to, starting from a node. *)
Fixpoint walk (p : list string) (n : node) : option node :=
  match p with
  | [] => Some n
  | name :: p' =>
      match n with
      | File _ => None
      | Directory entries =>
          match entries !! name with
          | Some child => walk p' child
          | None => None
          end
      end
  end.

(** The node at a path relative to the project root. *)
Definition resolve (p : list string) (fs : tree) : option node :=
  walk p (Directory fs).

Inductive errno : Type :=
| EACCES | EEXIST | ENOTDIR | ENOENT | EISDIR | EINVAL | ENOTEMPTY.

(** A failed call: the cause, the call, the path it was given and, for a
    call with two paths, the second.  The paths are those the call was
    given, here relative to the project root, the working directory of the
    script. *)
Record FsError : Type := {
  cause : errno;
  syscall : string;
  path : string;
  target : option string
}.

Definition describe (c : errno) : string :=
  match c with
  | EACCES => "EACCES: permission denied"
  | EEXIST => "EEXIST: file already exists"
  | ENOTDIR => "ENOTDIR: not a directory"
  | ENOENT => "ENOENT: no such file or directory"
  | EISDIR => "EISDIR: illegal operation on a directory"
  | EINVAL => "EINVAL: invalid argument"
  | ENOTEMPTY => "ENOTEMPTY: directory not empty"
  end.

(** [error.message], as Node writes it: the cause, the call, the path and,
    when there is one, the second path after an arrow. *)
Definition message (e : FsError) : string :=
  describe (cause e) +:+ ", " +:+ syscall e +:+ " '" +:+ path e +:+ "'"
  +:+ match target e with
      | Some t => " -> '" +:+ t +:+ "'"
      | None => EmptyString
      end.

Definition join (a b : string) : string := a +:+ "/" +:+ b.

(** How a sequence of awaited calls ends: normally with a value, or with a
    thrown error. *)
Inductive Completion (A : Type) : Type :=
| Normal (a : A)
| Throw (e : FsError).
Arguments Normal {A} a.
Arguments Throw {A} e.

(** A computation over the project tree.  The tree reached is returned in
    both cases: a throw keeps whatever the earlier calls did. *)
Definition Script (A : Type) : Type := tree -> tree * Completion A.

Definition ret {A : Type} (a : A) : Script A := fun fs => (fs, Normal a).

Definition bind {A B : Type} (m : Script A) (k : A -> Script B) : Script B :=
  fun fs =>
    match m fs with
    | (fs', Normal a) => k a fs'
    | (fs', Throw e) => (fs', Throw e)
    end.

Notation "'let*' x ':=' m 'in' k" := (bind m (fun x => k))
  (at level 10, x name, m at level 100, k at level 200).

(** [for (const x of l) { await f(x); }] *)
Fixpoint forEach (l : list string) (f : string -> Script unit) : Script unit :=
  match l with
  | [] => ret tt
  | x :: l' => let* _ := f x in forEach l' f
  end.

(** [fs.existsSync(path.join(root, name))] *)
Definition existsSync (name : string) : Script bool :=
  fun fs => (fs, Normal (bool_decide (is_Some (fs !! name)))).

(** [fs.promises.mkdir(path.join(root, name), { recursive: true })]: an
    existing directory is left as it is. *)
Definition mkdir (name : string) : Script unit :=
  fun fs =>
    match fs !! name with
    | None => (<[name := Directory ∅]> fs, Normal tt)
    | Some (Directory _) => (fs, Normal tt)
    | Some (File _) =>
        (fs, Throw {| cause := EEXIST; syscall := "mkdir"; path := name;
                      target := None |})
    end.

(** [fs.promises.writeFile(path.join(root, dir, name), content)]: creates
    the file or replaces its content. *)
Definition writeFile (dir name content : string) : Script unit :=
  fun fs =>
    let failed c :=
      (fs, Throw {| cause := c; syscall := "open"; path := join dir name;
                    target := None |}) in
    match fs !! dir with
    | None => failed ENOENT
    | Some (File _) => failed ENOTDIR
    | Some (Directory entries) =>
        match entries !! name with
        | Some (Directory _) => failed EISDIR
        | _ => (<[dir := Directory (<[name := File content]> entries)]> fs, Normal tt)
        end
    end.

Definition isDirectory (n : node) : bool :=
  match n with Directory _ => true | File _ => false end.

(** What stands in the way when [n] is renamed onto [over], the entry the
    new path already leads to: a file replaces a file, a directory replaces
    an empty directory, everything else fails. *)
Definition collision (n : node) (over : option node) : option errno :=
  match over, n with
  | None, _ => None
  | Some (File _), File _ => None
  | Some (File _), Directory _ => Some ENOTDIR
  | Some (Directory _), File _ => Some EISDIR
  | Some (Directory entries), Directory _ =>
      if bool_decide (size entries = 0) then None else Some ENOTEMPTY
  end.

(** The entries of a read-only directory after a refused recursive removal:
    the entries themselves cannot be unlinked, the sub-directories have been
    emptied. *)
Definition emptied (entries : gmap string node) : gmap string node :=
  (fun n => match n with File c => File c | Directory _ => Directory ∅ end)
    <$> entries.

Section Faults.

(** The read-only directories of the project root when the script starts,
    by name; each is a directory of the tree.  Such a directory cannot be
    moved to another parent, its entries cannot be removed and nothing can
    be moved into it; it can be removed once empty, and a directory the
    script creates under the same name afterwards is writable. *)
Variable denied : gset string.

(** [fs.promises.rename(path.join(root, name), path.join(root, dest, name))],
    as [rename(2)] does it: the entry replaces a file (when it is a file) or
    an empty directory (when it is a directory) found at the new path, and
    fails, changing nothing, on a directory that is not empty, on a file in
    the way of a directory or a directory in the way of a file. *)
Definition rename (name dest : string) : Script unit :=
  fun fs =>
    let failed c :=
      (fs, Throw {| cause := c; syscall := "rename"; path := name;
                    target := Some (join dest name) |}) in
    match fs !! name with
    | None => failed ENOENT
    | Some n =>
        if bool_decide (name = dest) then failed EINVAL
        else if bool_decide (name ∈ denied) && isDirectory n then failed EACCES
        else if bool_decide (dest ∈ denied) then failed EACCES
        else
          match fs !! dest with
          | None => failed ENOENT
          | Some (File _) => failed ENOTDIR
          | Some (Directory entries) =>
              match collision n (entries !! name) with
              | Some c => failed c
              | None =>
                  (<[dest := Directory (<[name := n]> entries)]> (delete name fs),
                   Normal tt)
              end
          end
    end.

(** [fs.promises.rm(path.join(root, name), { recursive: true, force: true })].
    The removal of a read-only directory with entries is refused on an
    entry, the first of the listing (taken in the order of [map_to_list]);
    a file, an empty directory and a missing path raise nothing. *)
Definition rm (name : string) : Script unit :=
  fun fs =>
    match fs !! name with
    | Some (Directory entries) =>
        if bool_decide (name ∈ denied) then
          match map_to_list entries with
          | [] => (delete name fs, Normal tt)
          | (k, child) :: _ =>
              (<[name := Directory (emptied entries)]> fs,
               Throw {| cause := EACCES;
                        syscall := if isDirectory child then "rmdir" else "unlink";
                        path := join name k;
                        target := None |})
          end
        else (delete name fs, Normal tt)
    | _ => (delete name fs, Normal tt)
    end.

End Faults.

End Fs.

(** ** scripts/reset-project.js: the reset itself *)

Module Reset.
Import Fs.

Definition oldDirs : list string := ["app"; "components"; "hooks"; "constants"; "scripts"].
Definition exampleDir : string := "app-example".
Definition newAppDir : string := "app".

Definition dquote : string := String (ascii_of_nat 34) EmptyString.
Definition newline : string := String (ascii_of_nat 10) EmptyString.
Definition quoted (s : string) : string := dquote +:+ s +:+ dquote.

Definition indexContent : string :=
  String.concat newline
    [ "import { Text, View } from " +:+ quoted "react-native" +:+ ";";
      "";
      "export default function Index() {";
      "  return (";
      "    <View style={{ flex: 1, justifyContent: " +:+ quoted "center"
        +:+ ", alignItems: " +:+ quoted "center" +:+ " }}>";
      "      <Text>Edit app/index.tsx to edit this screen.</Text>";
      "    </View>";
      "  );";
      "}" ].

Definition layoutContent : string :=
  String.concat newline
    [ "import { Stack } from " +:+ quoted "expo-router" +:+ ";";
      "";
      "export default function RootLayout() {";
      "  return <Stack />;";
      "}" ].

(** The names of the two replacement files inside [newAppDir]. *)
Definition indexFile : string := "index.tsx".
Definition layoutFile : string := "_layout.tsx".

(** The entries of the entry-point directory a completed run leaves. *)
Definition blankApp : gmap string node :=
  <[layoutFile := File layoutContent]> (<[indexFile := File indexContent]> ∅).

(** What the script can be observed to leave behind besides the tree: the
    lines written with [console.error] and the status the process ends
    with, which is [process.exitCode] when nothing calls [process.exit]. *)
Record Process : Type := { stderr : list string; exitCode : Z }.

Definition started : Process := {| stderr := []; exitCode := 0 |}.

(** [console.error(line)] *)
Definition console_error (line : string) (p : Process) : Process :=
  {| stderr := stderr p ++ [line]; exitCode := exitCode p |}.

(** [try { body } catch (error) { handler(error) }] *)
Definition try_catch (body : Script unit) (handler : FsError -> Process -> Process)
  (fs : tree) (p : Process) : tree * Process :=
  match body fs with
  | (fs', Normal _) => (fs', p)
  | (fs', Throw error) => (fs', handler error p)
  end.

(** [console.error(`❌ Error during script execution: ${error.message}`);]
    The cross mark of the literal is kept as the bytes of its UTF-8
    encoding. *)
Definition onError (error : FsError) : Process -> Process :=
  console_error ("❌ Error during script execution: " +:+ message error).

(** Modelled from the spec: the branch taken on [userInput], which the
    source elides as [// Process user choice].  The line is affirmative when
    it is empty or the affirmative token, negative otherwise; after
    [userInput] that is equality with the token. *)
Definition preserve (userInput : string) : bool := String.eqb userInput "y".

Section Run.

Variable denied : gset string.

(** Modelled from the spec: the treatment of one name of the source set,
    whose code is missing from the source.  A name that exists on disk is
    relocated beneath the archive directory, created if absent, when
    preserving, and removed with its contents when deleting; a name absent
    from disk is skipped. *)
Definition processDir (userInput dir : string) : Script unit :=
  let* present := existsSync dir in
  if present then
    if preserve userInput
    then let* _ := mkdir exampleDir in rename denied dir exampleDir
    else rm denied dir
  else ret tt.

(** Modelled from the spec: the loop over the source set in the order
    given. *)
Definition processDirs (dirs : list string) (userInput : string) : Script unit :=
  forEach dirs (processDir userInput).

(** Modelled from the spec: the body of the [try] block, which the source
    elides as [// Script operations]: process the source set, (re)create the
    entry-point directory, write the two replacement files. *)
Definition scriptOperations (userInput : string) : Script unit :=
  let* _ := processDirs oldDirs userInput in
  let* _ := mkdir newAppDir in
  let* _ := writeFile newAppDir indexFile indexContent in
  writeFile newAppDir layoutFile layoutContent.

(** [try { // Script operations } catch (error) { console.error(...) }] *)
Definition moveDirectories (userInput : string) : tree -> Process -> tree * Process :=
  try_catch (scriptOperations userInput) onError.

(** The callback of [rl.question]: one line read from standard input. *)
Definition resetProject (answer : string) (fs : tree) : tree * Process :=
  let userInput := Prompt.userInput answer in
  moveDirectories userInput fs started.

End Run.

(** A run that reported no error. *)
Definition succeeded (r : tree * Process) : Prop := stderr (snd r) = [].

(** Every name of the source set is a directory of the project. *)
Definition allSourcesPresent (fs : tree) : Prop :=
  ∀ d, d ∈ oldDirs → ∃ entries, fs !! d = Some (Directory entries).

(** No name of the source set exists in the project. *)
Definition noSourcePresent (fs : tree) : Prop :=
  ∀ d, d ∈ oldDirs → fs !! d = None.

(** The entries of the archive directory (none when it does not exist). *)
Definition archive (fs : tree) : gmap string node :=
  match fs !! exampleDir with
  | Some (Directory entries) => entries
  | _ => ∅
  end.

(** The tree after the move of the entry [n] named [d] into the archive. *)
Definition moved (d : string) (n : node) (fs : tree) : tree :=
  <[exampleDir := Directory (<[d := n]> (archive fs))]> (delete d fs).

(** Nothing stands in the way of the removal of [d]: it is not a read-only
    directory with entries. *)
Definition removable (denied : gset string) (fs : tree) (d : string) : Prop :=
  d ∉ denied ∨ ∀ entries, fs !! d = Some (Directory entries) → entries = ∅.

(** Nothing stands in the way of the move of the entry [n] named [d] into
    the archive: the archive path is not a file, neither the archive nor
    [n] is a read-only directory, and [n] can replace what the archive holds
    under the name [d], if anything. *)
Definition movable (denied : gset string) (fs : tree) (d : string) (n : node)
  : Prop :=
  (∀ c, fs !! exampleDir ≠ Some (File c))
  ∧ (exampleDir ∉ denied)
  ∧ (d ∉ denied ∨ isDirectory n = false)
  ∧ collision n (archive fs !! d) = None.

(** Every member of the source set that exists can be moved. *)
Definition unobstructed (denied : gset string) (fs : tree) : Prop :=
  ∀ d n, d ∈ oldDirs → fs !! d = Some n → movable denied fs d n.

(** A file of a source directory whose content tells it apart from the two
    files the script itself writes. *)
Definition marker (fs : tree) (d : string) (p : list string) (c : string) : Prop :=
  d ∈ oldDirs
  ∧ resolve (d :: p) fs = Some (File c)
  ∧ c ≠ indexContent ∧ c ≠ layoutContent.

(** A template project: every directory of the source set with a marker
    file in it, beside a file that is not part of the source set. *)
Definition templateProject : tree :=
  <["app" := Directory (<["marker.txt" := File "A"]> ∅)]>
  (<["components" := Directory (<["marker.txt" := File "C"]> ∅)]>
  (<["hooks" := Directory (<["marker.txt" := File "H"]> ∅)]>
  (<["constants" := Directory (<["marker.txt" := File "K"]> ∅)]>
  (<["scripts" := Directory (<["marker.txt" := File "S"]> ∅)]>
  (<["README.md" := File "readme"]> ∅))))).

(** The template project with an archive left by an earlier run, in which
    the name [components] is taken by a directory with a file in it. *)
Definition archivedProject : tree :=
  <[exampleDir :=
      Directory (<["components" := Directory (<["old.txt" := File "old"]> ∅)]> ∅)]>
    templateProject.

(** The source set in another order. *)
Definition componentsFirst : list string :=
  ["components"; "app"; "hooks"; "constants"; "scripts"].

End Reset.

(** ** Regular expressions, as far as the guide uses them *)

Module RegExp.

(** The patterns without captures, look-around or back-references: on
    these, [test] with both anchors decides membership of the whole string
    in the language of the pattern. *)
Inductive regex : Type :=
| Fail
| Nil
| Class (p : ascii -> bool)
| Seq (r s : regex)
| Alt (r s : regex)
| Star (r : regex).

(** [r+] *)
Definition Plus (r : regex) : regex := Seq r (Star r).

(** A literal code unit. *)
Definition Lit (c : ascii) : regex := Class (Ascii.eqb c).

(** The strings of the language of a pattern. *)
Inductive Matches : regex -> string -> Prop :=
| Matches_Nil : Matches Nil EmptyString
| Matches_Class p c : p c = true -> Matches (Class p) (String c EmptyString)
| Matches_Seq r s u v :
    Matches r u -> Matches s v -> Matches (Seq r s) (u +:+ v)
| Matches_AltL r s u : Matches r u -> Matches (Alt r s) u
| Matches_AltR r s u : Matches s u -> Matches (Alt r s) u
| Matches_Star0 r : Matches (Star r) EmptyString
| Matches_StarS r u v :
    Matches r u -> Matches (Star r) v -> Matches (Star r) (u +:+ v).

Fixpoint nullable (r : regex) : bool :=
  match r with
  | Fail => false
  | Nil => true
  | Class _ => false
  | Seq r s => nullable r && nullable s
  | Alt r s => nullable r || nullable s
  | Star _ => true
  end.

(** What is left of a pattern once the code unit [c] has been read. *)
Fixpoint derive (c : ascii) (r : regex) : regex :=
  match r with
  | Fail => Fail
  | Nil => Fail
  | Class p => if p c then Nil else Fail
  | Seq r s =>
      if nullable r
      then Alt (Seq (derive c r) s) (derive c s)
      else Seq (derive c r) s
  | Alt r s => Alt (derive c r) (derive c s)
  | Star r => Seq (derive c r) (Star r)
  end.

(** [/^r$/.test(s)] *)
Fixpoint test (r : regex) (s : string) : bool :=
  match s with
  | EmptyString => nullable r
  | String c s' => test (derive c r) s'
  end.

End RegExp.

(** ** The guide's input validation: [validateEmail] and [LoginForm] *)

Module Forms.

(** [[^\s@]]: any code unit but white space and the at sign. *)
Definition notSpaceNorAt (c : ascii) : bool :=
  negb (JS.isWhiteSpace c || Ascii.eqb c "@").

(** [const emailRegex = /^[^\s@]+@[^\s@]+\.[^\s@]+$/;] *)
Definition emailRegex : RegExp.regex :=
  RegExp.Seq (RegExp.Plus (RegExp.Class notSpaceNorAt))
    (RegExp.Seq (RegExp.Lit "@")
       (RegExp.Seq (RegExp.Plus (RegExp.Class notSpaceNorAt))
          (RegExp.Seq (RegExp.Lit ".")
             (RegExp.Plus (RegExp.Class notSpaceNorAt))))).

(** [return emailRegex.test(email);] *)
Definition validateEmail (email : string) : bool := RegExp.test emailRegex email.

(** Every code unit of the string is in the class. *)
Fixpoint allOf (p : ascii -> bool) (s : string) : bool :=
  match s with
  | EmptyString => true
  | String c s' => p c && allOf p s'
  end.

(** A non-empty run of code units other than white space and the at sign. *)
Definition word (s : string) : bool := JS.truthy s && allOf notSpaceNorAt s.

(** How often a code unit occurs in a string. *)
Fixpoint occurrences (c : ascii) (s : string) : nat :=
  match s with
  | EmptyString => 0
  | String d s' => (if Ascii.eqb c d then 1 else 0) + occurrences c s'
  end.

(** The two state cells of [LoginForm]: [email] and [isValid]. *)
Record LoginForm : Type := { email : string; isValid : bool }.

(** [useState('')] and [useState(true)] *)
Definition pristine : LoginForm := {| email := EmptyString; isValid := true |}.

(** [setEmail(text); setIsValid(validateEmail(text));] *)
Definition handleEmailChange (text : string) (form : LoginForm) : LoginForm :=
  {| email := text; isValid := validateEmail text |}.

(** [!isValid && styles.inputError]: whether the input is drawn as an
    error. *)
Definition inputError (form : LoginForm) : bool := negb (isValid form).

(** The form after the texts reported by [onChangeText], in turn. *)
Definition typed (texts : list string) : LoginForm :=
  foldl (fun form text => handleEmailChange text form) pristine texts.

End Forms.

(** ** The guide's token storage and [AuthProvider] *)

Module Auth.

(** The items of [expo-secure-store], by key. *)
Abbreviation SecureStore := (gmap string string).

(** [SecureStore.setItemAsync(key, value)] *)
Definition setItemAsync (key value : string) (store : SecureStore) : SecureStore :=
  <[key := value]> store.

(** [SecureStore.getItemAsync(key)]: the value, or [null]. *)
Definition getItemAsync (key : string) (store : SecureStore) : option string :=
  store !! key.

(** [SecureStore.deleteItemAsync(key)] *)
Definition deleteItemAsync (key : string) (store : SecureStore) : SecureStore :=
  delete key store.

Definition storeToken (token : string) (store : SecureStore) : SecureStore :=
  setItemAsync "userToken" token store.

Definition getToken (store : SecureStore) : option string :=
  getItemAsync "userToken" store.

Definition removeToken (store : SecureStore) : SecureStore :=
  deleteItemAsync "userToken" store.

Section Provider.

(** [user: any | null]: a user is whatever the backend answers. *)
Variable User : Type.
(** What a rejected promise carries. *)
Variable Failure : Type.
(** [validateToken(token)], which the source calls and does not define: the
    user data the backend resolves to ([None] for [null]), or a rejection. *)
Variable validateToken : string -> option User + Failure.

(** The state cells of [AuthProvider], the store it reads, and what it
    wrote with [console.error('Auth check failed:', error)]. *)
Record Provider : Type := {
  user : option User;
  isLoading : bool;
  store : SecureStore;
  failures : list Failure
}.

(** [useState(null)] and [useState(true)], over a given store. *)
Definition mounted (s : SecureStore) : Provider :=
  {| user := None; isLoading := true; store := s; failures := [] |}.

(** [checkAuthState]: the [try] block reads the token and, when it is
    truthy, validates it and sets the user; the [catch] block logs; the
    [finally] block clears [isLoading]. *)
Definition checkAuthState (p : Provider) : Provider :=
  let finally (u : option User) (log : list Failure) :=
    {| user := u; isLoading := false; store := store p; failures := log |} in
  match getToken (store p) with
  | Some token =>
      if JS.truthy token then
        match validateToken token with
        | inl userData => finally userData (failures p)
        | inr error => finally (user p) (failures p ++ [error])%list
        end
      else finally (user p) (failures p)
  | None => finally (user p) (failures p)
  end.

(** [signOut]: [await removeToken(); setUser(null);] *)
Definition signOut (p : Provider) : Provider :=
  {| user := None; isLoading := isLoading p;
     store := removeToken (store p); failures := failures p |}.

End Provider.

End Auth.

(** ** The guide's data-fetching hook: [useUserData] and [UserProfile] *)

Module UserData.

Section Fetching.

(** What [api.getUser] resolves to. *)
Variable User : Type.
(** What it rejects with; rejections are error objects, hence truthy. *)
Variable Failure : Type.

(** How one call [await api.getUser(userId)] ends: it resolves or rejects. *)
Definition Outcome : Type := User + Failure.

(** The three state cells of the hook; [None] is [null]. *)
Record Cells : Type := { user : option User; loading : bool; error : option Failure }.

(** [useState(null)], [useState(true)], [useState(null)] *)
Definition mounted : Cells := {| user := None; loading := true; error := None |}.

(** [fetchUser] up to its [await]: [setLoading(true)]. *)
Definition fetchStarted (c : Cells) : Cells :=
  {| user := user c; loading := true; error := error c |}.

(** [fetchUser] after its [await]: [setUser(userData)] or [setError(err)],
    then [setLoading(false)] in the [finally] block. *)
Definition fetchSettled (outcome : Outcome) (c : Cells) : Cells :=
  match outcome with
  | inl userData => {| user := Some userData; loading := false; error := error c |}
  | inr err => {| user := user c; loading := false; error := Some err |}
  end.

(** One run of the effect, from start to end. *)
Definition fetchUser (outcome : Outcome) (c : Cells) : Cells :=
  fetchSettled outcome (fetchStarted c).

(** The cells after the effect has run to its end once per value of
    [userId] (the first on mount, the next on each change), the calls
    ending as given. *)
Definition fetched (outcomes : list Outcome) : Cells :=
  foldl (fun c outcome => fetchUser outcome c) mounted outcomes.

(** What [UserProfile] returns. *)
Inductive Element : Type :=
| LoadingSpinner
| ErrorMessage (error : Failure)
| UserCard (user : option User).

(** [if (loading) return <LoadingSpinner />;
     if (error) return <ErrorMessage error={error} />;
     return <UserCard user={user} />;] *)
Definition UserProfile (c : Cells) : Element :=
  if loading c then LoadingSpinner
  else match error c with
       | Some e => ErrorMessage e
       | None => UserCard (user c)
       end.

End Fetching.

End UserData.

(** ** The guide's list layout: [getItemLayout] *)

Module Lists.

(** The numbers of the layout.  An index is an integer (FlatList passes the
    position of an item in [data]); a product is a double: an integer, the
    exact one or the nearest a double holds, or an infinity. *)
Inductive Number : Type :=
| Finite (z : Z)
| Infinite (negative : bool).

(** The integer a double holds in place of the integer [z]: [z] itself up
    to [2^53] in magnitude; beyond, the 53 leading bits of [z], rounded to
    the nearest, ties to the even one. *)
Definition roundToDouble (z : Z) : Z :=
  let m := Z.abs z in
  if (m <=? 2 ^ 53)%Z then z
  else
    let e := (Z.log2 m - 52)%Z in
    let q := Z.shiftr m e in
    let r := Z.land m (Z.ones e) in
    let half := Z.shiftl 1 (e - 1) in
    let q' :=
      if (r <? half)%Z then q
      else if (half <? r)%Z then (q + 1)%Z
      else if Z.even q then q else (q + 1)%Z in
    (Z.sgn z * Z.shiftl q' e)%Z.

(** What a double holds in place of [z]: past the largest double the
    rounding gives an infinity. *)
Definition toNumber (z : Z) : Number :=
  let r := roundToDouble z in
  if (Z.abs r <? 2 ^ 1024)%Z then Finite r else Infinite (z <? 0)%Z.

(** [a * b] on two integers. *)
Definition times (a b : Z) : Number := toNumber (a * b).

(** [{ length, offset, index }] *)
Record ItemLayout : Type := { length : Z; offset : Number; index : Z }.

(** [getItemLayout={(data, index) => ({ length: 80, offset: 80 * index, index })}] *)
Definition getItemLayout {A : Type} (data : list A) (index : Z) : ItemLayout :=
  {| length := 80; offset := times 80 index; index := index |}.

(** The item drawn at the scroll position [y]: the one whose stretch
    [offset, offset + length) holds [y]. *)
Definition covers (l : ItemLayout) (y : Z) : Prop :=
  match offset l with
  | Finite o => (o <= y < o + length l)%Z
  | Infinite _ => False
  end.

End Lists.

(** ** The guide's clean-up example: [useLocation] *)

Module Location.

Section Hook.

(** What [Location.getCurrentPositionAsync] resolves to and rejects with. *)
Variable Position : Type.
Variable Failure : Type.

(** The variable [isMounted] of the effect, the state cell [location], and
    what was written with [console.error('Location error:', error)]. *)
Record Hook : Type := {
  isMounted : bool;
  location : option Position;
  logged : list Failure
}.

(** [useState(null)] and [let isMounted = true;] *)
Definition mounted : Hook :=
  {| isMounted := true; location := None; logged := [] |}.

(** What happens to the hook: the awaited call settles, or the clean-up
    function of the effect runs. *)
Inductive Event : Type :=
| Settled (outcome : Position + Failure)
| CleanedUp.

(** [getLocation] after its [await], and [return () => { isMounted = false; }]. *)
Definition step (h : Hook) (ev : Event) : Hook :=
  match ev with
  | Settled (inl result) =>
      if isMounted h
      then {| isMounted := isMounted h; location := Some result; logged := logged h |}
      else h
  | Settled (inr error) =>
      {| isMounted := isMounted h; location := location h;
         logged := (logged h ++ [error])%list |}
  | CleanedUp =>
      {| isMounted := false; location := location h; logged := logged h |}
  end.

Definition run (h : Hook) (events : list Event) : Hook := foldl step h events.

End Hook.

End Location.

(** * Properties *)

(** ** The confirmation line *)

Section StringFacts.
Import JS.

Lemma code_bound c : (code c < 256)%N.
Proof. apply N_ascii_bounded. Qed.

Lemma code_inj c d : code c = code d -> c = d.
Proof.
  intros H. rewrite <- (ascii_N_embedding c), <- (ascii_N_embedding d).
  unfold code in H. by rewrite H.
Qed.

Lemma isUpper_range c :
  isUpper c = true <->
  ((65 <= code c <= 90) \/ (192 <= code c <= 214) \/ (216 <= code c <= 222))%N.
Proof.
  unfold isUpper.
  rewrite !orb_true_iff, !andb_true_iff, !N.leb_le. tauto.
Qed.

Lemma isWhiteSpace_range c :
  isWhiteSpace c = true <->
  ((9 <= code c <= 13) \/ code c = 32 \/ code c = 160)%N.
Proof.
  unfold isWhiteSpace.
  rewrite !orb_true_iff, !andb_true_iff, !N.leb_le, !N.eqb_eq. tauto.
Qed.

Lemma code_toLowerChar_upper c :
  isUpper c = true -> code (toLowerChar c) = (code c + 32)%N.
Proof.
  intros H. unfold toLowerChar. rewrite H.
  apply N_ascii_embedding. apply isUpper_range in H. lia.
Qed.

Lemma isUpper_shifted c d :
  isUpper c = true -> code d = (code c + 32)%N -> isUpper d = false.
Proof.
  intros Hc Hd. apply isUpper_range in Hc.
  apply not_true_is_false. intros Hu. apply isUpper_range in Hu. lia.
Qed.

Lemma toLowerChar_shifted c d :
  isUpper c = true -> code d = (code c + 32)%N -> toLowerChar c = toLowerChar d.
Proof.
  intros Hc Hd. apply code_inj.
  rewrite (code_toLowerChar_upper c Hc).
  unfold toLowerChar at 1. by rewrite (isUpper_shifted c d Hc Hd).
Qed.

Lemma toLowerChar_sameLetter c d : sameLetter c d -> toLowerChar c = toLowerChar d.
Proof.
  intros [-> | [[Hc Hd] | [Hd Hc]]]; [done | |].
  - by apply toLowerChar_shifted.
  - symmetry. by apply toLowerChar_shifted.
Qed.

Lemma toLowerCase_sameLetters s t : sameLetters s t -> toLowerCase s = toLowerCase t.
Proof.
  induction 1 as [| c d s t Hcd _ IH]; simpl; [done |].
  by rewrite (toLowerChar_sameLetter c d Hcd), IH.
Qed.

(** Lowering a letter does not turn it into white space, nor white space into
    a letter. *)
Lemma isWhiteSpace_toLowerChar c : isWhiteSpace (toLowerChar c) = isWhiteSpace c.
Proof.
  destruct (isUpper c) eqn:Hu.
  - pose proof (code_toLowerChar_upper c Hu) as Hl.
    apply isUpper_range in Hu.
    transitivity false; [| symmetry]; apply not_true_is_false; intros Hw;
      apply isWhiteSpace_range in Hw; lia.
  - unfold toLowerChar. by rewrite Hu.
Qed.

Lemma toLowerCase_trimStart s : toLowerCase (trimStart s) = trimStart (toLowerCase s).
Proof.
  induction s as [| c s IH]; simpl; [done |].
  rewrite isWhiteSpace_toLowerChar. by destruct (isWhiteSpace c).
Qed.

Lemma toLowerCase_trimEnd s : toLowerCase (trimEnd s) = trimEnd (toLowerCase s).
Proof.
  induction s as [| c s IH]; simpl; [done |].
  rewrite <- IH, isWhiteSpace_toLowerChar.
  destruct (trimEnd s); simpl; [| done].
  by destruct (isWhiteSpace c).
Qed.

Lemma toLowerCase_trim s : toLowerCase (trim s) = trim (toLowerCase s).
Proof. unfold trim. by rewrite toLowerCase_trimEnd, toLowerCase_trimStart. Qed.

Lemma trimStart_blank s : blank s = true -> trimStart s = EmptyString.
Proof.
  induction s as [| c s IH]; simpl; [done |].
  intros [Hc Hs]%andb_true_iff. rewrite Hc. by apply IH.
Qed.

Lemma trimEnd_blank s : blank s = true -> trimEnd s = EmptyString.
Proof.
  induction s as [| c s IH]; simpl; [done |].
  intros [Hc Hs]%andb_true_iff. by rewrite (IH Hs), Hc.
Qed.

Lemma trimStart_app_blank pre s : blank pre = true -> trimStart (pre +:+ s) = trimStart s.
Proof.
  induction pre as [| c pre IH]; simpl; [done |].
  intros [Hc Hs]%andb_true_iff. rewrite Hc. by apply IH.
Qed.

Lemma trimEnd_app_blank s post : blank post = true -> trimEnd (s +:+ post) = trimEnd s.
Proof.
  intros Hp. induction s as [| c s IH]; simpl.
  - by apply trimEnd_blank.
  - by rewrite IH.
Qed.

Lemma trim_app_blank s post : blank post = true -> trim (s +:+ post) = trim s.
Proof.
  intros Hp. unfold trim. induction s as [| c s IH]; simpl.
  - change (EmptyString +:+ post) with post.
    by rewrite (trimStart_blank post Hp).
  - destruct (isWhiteSpace c); [done |].
    change (String c (s +:+ post)) with (String c s +:+ post).
    by apply trimEnd_app_blank.
Qed.

Lemma trim_padding pre s post :
  blank pre = true -> blank post = true -> trim (pre +:+ s +:+ post) = trim s.
Proof.
  intros Hpre Hpost. unfold trim at 1.
  rewrite (trimStart_app_blank pre _ Hpre).
  by apply trim_app_blank.
Qed.

End StringFacts.

Lemma userInput_padding pre s post :
  JS.blank pre = true -> JS.blank post = true ->
  Prompt.userInput (pre +:+ s +:+ post) = Prompt.userInput s.
Proof.
  intros Hpre Hpost. unfold Prompt.userInput.
  by rewrite (trim_padding pre s post Hpre Hpost).
Qed.

Lemma userInput_sameLetters s t :
  JS.sameLetters s t -> Prompt.userInput s = Prompt.userInput t.
Proof.
  intros Hst. unfold Prompt.userInput.
  by rewrite !toLowerCase_trim, (toLowerCase_sameLetters s t Hst).
Qed.

(** The script reads the line only through [userInput]. *)
Lemma resetProject_userInput denied a b fs :
  Prompt.userInput a = Prompt.userInput b ->
  Reset.resetProject denied a fs = Reset.resetProject denied b fs.
Proof. intros H. unfold Reset.resetProject. by rewrite H. Qed.

Example userInput_upper : Prompt.userInput "Y" = "y".
Proof. reflexivity. Qed.

Example userInput_padded : Prompt.userInput " y " = "y".
Proof. reflexivity. Qed.

Example userInput_lower : Prompt.userInput "y" = "y".
Proof. reflexivity. Qed.

Example userInput_negative : Prompt.userInput " N" = "n".
Proof. reflexivity. Qed.

(** C5: an empty line read from standard input is interpreted exactly like
    an explicit affirmative line ([y] or [Y]): [userInput] is the same
    value, that value takes the preserve-by-moving branch, and the whole
    run is the same on every project tree. *)
Theorem empty_line_is_affirmative :
  Prompt.userInput "" = Prompt.userInput "y"
  ∧ Prompt.userInput "" = Prompt.userInput "Y"
  ∧ Reset.preserve (Prompt.userInput "") = true
  ∧ Reset.preserve (Prompt.userInput "y") = true
  ∧ (∀ denied fs,
        Reset.resetProject denied "" fs = Reset.resetProject denied "y" fs
        ∧ Reset.resetProject denied "" fs = Reset.resetProject denied "Y" fs).
Proof.
  repeat split; try reflexivity; by apply resetProject_userInput.
Qed.

(** C10: the interpretation of the confirmation line is insensitive to
    letter case and to surrounding white space.  A line [pre ++ s ++ post],
    with [pre] and [post] white space and [s] equal to [t] up to letter
    case, yields the same [userInput] as [t], hence the same branch and the
    same run. *)
Theorem confirmation_ignores_case_and_padding (pre post s t : string) :
  JS.blank pre = true ->
  JS.blank post = true ->
  JS.sameLetters s t ->
  Prompt.userInput (pre +:+ s +:+ post) = Prompt.userInput t
  ∧ Reset.preserve (Prompt.userInput (pre +:+ s +:+ post))
    = Reset.preserve (Prompt.userInput t)
  ∧ (∀ denied fs,
        Reset.resetProject denied (pre +:+ s +:+ post) fs
        = Reset.resetProject denied t fs).
Proof.
  intros Hpre Hpost Hst.
  assert (Prompt.userInput (pre +:+ s +:+ post) = Prompt.userInput t) as Heq.
  { rewrite (userInput_padding pre s post Hpre Hpost).
    by apply userInput_sameLetters. }
  split; [exact Heq |]. split; [by rewrite Heq |].
  intros denied fs. by apply resetProject_userInput.
Qed.

Lemma sameLetters_Y_y : JS.sameLetters "Y" "y".
Proof.
  constructor; [| constructor].
  right. left. split; reflexivity.
Defined.

Lemma confirmation_ignores_case_and_padding_witness :
  JS.blank " " = true
  ∧ JS.sameLetters "Y" "y"
  ∧ Prompt.userInput (" " +:+ "Y" +:+ " ") = Prompt.userInput "y"
  ∧ Reset.preserve (Prompt.userInput (" " +:+ "Y" +:+ " ")) = true.
Proof.
  split; [reflexivity |]. split; [exact sameLetters_Y_y |].
  destruct (confirmation_ignores_case_and_padding " " " " "Y" "y"
              eq_refl eq_refl sameLetters_Y_y) as (Hu & Hp & _).
  split; [exact Hu |]. rewrite Hp. reflexivity.
Defined.

(** ** The theming hooks *)

Section HookFacts.
Import Theme.

Lemma renders_hydrated rn : renders (Some true) rn = rn.
Proof. induction rn as [| v rn IH]; simpl; [done |]. by rewrite IH. Qed.

Lemma renders_first v rn : renders None (v :: rn) = Some light :: rn.
Proof. simpl. by rewrite renders_hydrated. Qed.

Lemma useThemeColor_override rn props name c :
  prop props (themeOf rn) = Some c -> c ≠ EmptyString ->
  useThemeColor rn props name = c.
Proof.
  intros Hp Hc. unfold useThemeColor. rewrite Hp.
  destruct c; [done | reflexivity].
Qed.

Lemma useThemeColor_fallback rn props name :
  prop props (themeOf rn) = None ∨ prop props (themeOf rn) = Some EmptyString ->
  useThemeColor rn props name = Colors (themeOf rn) name.
Proof. intros [Hp | Hp]; unfold useThemeColor; by rewrite Hp. Qed.

End HookFacts.

(** C8, as the code has it: [useColorScheme] returns exactly what the
    framework primitive returns.  The web variant branches on its own
    [hasHydrated] cell: it returns ['light'] in the first render, whatever
    the primitive returns, and the primitive's value in every later render.
    [useThemeColor] reads the primitive only through the theme, [null]
    counting as ['light'], and then branches on its props. *)
Theorem hooks_delegate_after_hydration (rn : option Theme.ColorScheme) :
  Theme.useColorScheme rn = rn
  ∧ fst (Theme.useColorScheme_web None rn) = Some Theme.light
  ∧ snd (Theme.useColorScheme_web None rn) = Some true
  ∧ fst (Theme.useColorScheme_web (Some true) rn) = rn
  ∧ (∀ later, Theme.renders None (rn :: later) = Some Theme.light :: later)
  ∧ (∀ props name,
        Theme.useThemeColor rn props name
        = Theme.useThemeColor (Some (Theme.themeOf rn)) props name).
Proof.
  repeat split; try reflexivity.
  intros later. apply renders_first.
Qed.

(** C8 as stated fails: before hydration the web variant returns ['light']
    while the primitive returns ['dark'], and [useThemeColor] gives two
    different answers for one and the same value of the primitive. *)
Lemma hooks_branch_counterexample :
  fst (Theme.useColorScheme_web None (Some Theme.dark)) = Some Theme.light
  ∧ fst (Theme.useColorScheme_web None (Some Theme.dark)) ≠ Some Theme.dark
  ∧ Theme.useThemeColor (Some Theme.dark)
      {| Theme.p_light := None; Theme.p_dark := Some "#000" |} Theme.text = "#000"
  ∧ Theme.useThemeColor (Some Theme.dark)
      {| Theme.p_light := None; Theme.p_dark := None |} Theme.text = "#ECEDEE".
Proof. repeat split; try reflexivity. discriminate. Qed.

(** C9: [useThemeColor(props, colorName)] returns the colour string that
    [props] holds for the detected theme when there is one (a non-empty
    string): [props.light] under ['light'], [props.dark] under ['dark'],
    whatever the other property holds; and [Colors[theme][colorName]]
    otherwise (no such property, or the empty string, which is falsy); the
    theme is ['light'] when the detection returns [null]. *)
Theorem useThemeColor_spec (l d : option string) (name : Theme.ColorName) :
  (∀ c, c ≠ EmptyString ->
        Theme.useThemeColor (Some Theme.light)
          {| Theme.p_light := Some c; Theme.p_dark := d |} name = c)
  ∧ (∀ c, c ≠ EmptyString ->
        Theme.useThemeColor (Some Theme.dark)
          {| Theme.p_light := l; Theme.p_dark := Some c |} name = c)
  ∧ (l = None ∨ l = Some EmptyString ->
     Theme.useThemeColor (Some Theme.light)
       {| Theme.p_light := l; Theme.p_dark := d |} name
     = Theme.Colors Theme.light name)
  ∧ (d = None ∨ d = Some EmptyString ->
     Theme.useThemeColor (Some Theme.dark)
       {| Theme.p_light := l; Theme.p_dark := d |} name
     = Theme.Colors Theme.dark name)
  ∧ Theme.useThemeColor None {| Theme.p_light := l; Theme.p_dark := d |} name
    = Theme.useThemeColor (Some Theme.light)
        {| Theme.p_light := l; Theme.p_dark := d |} name
  ∧ Theme.Colors Theme.light Theme.text = "#11181C"
  ∧ Theme.Colors Theme.dark Theme.text = "#ECEDEE"
  ∧ Theme.Colors Theme.light Theme.background = "#fff"
  ∧ Theme.Colors Theme.dark Theme.background = "#151718".
Proof.
  split; [intros c Hc; by apply useThemeColor_override |].
  split; [intros c Hc; by apply useThemeColor_override |].
  split; [intros H; by apply useThemeColor_fallback |].
  split; [intros H; by apply useThemeColor_fallback |].
  repeat split; reflexivity.
Qed.

(** ** The calls on the project tree *)

Section ScriptFacts.
Import Fs Reset.

Lemma bind_normal {A B} (m : Script A) (k : A -> Script B) fs fs' a :
  m fs = (fs', Normal a) -> (let* x := m in k x) fs = k a fs'.
Proof. intros H. unfold bind. by rewrite H. Qed.

Lemma bind_throw {A B} (m : Script A) (k : A -> Script B) fs fs' e :
  m fs = (fs', Throw e) -> (let* x := m in k x) fs = (fs', Throw e).
Proof. intros H. unfold bind. by rewrite H. Qed.

(** A sequence completes normally only when its first part does. *)
Lemma bind_normal_inv {A B} (m : Script A) (k : A -> Script B) fs fs' b :
  (let* x := m in k x) fs = (fs', Normal b) ->
  ∃ fs1 a, m fs = (fs1, Normal a) ∧ k a fs1 = (fs', Normal b).
Proof.
  unfold bind. destruct (m fs) as [fs1 [a | e]]; [| done].
  intros H. by exists fs1, a.
Qed.

Lemma bind_throw_inv {A B} (m : Script A) (k : A -> Script B) fs fs' e :
  (let* x := m in k x) fs = (fs', Throw e) ->
  m fs = (fs', Throw e)
  ∨ ∃ fs1 a, m fs = (fs1, Normal a) ∧ k a fs1 = (fs', Throw e).
Proof.
  unfold bind. destruct (m fs) as [fs1 [a | e1]].
  - intros H. right. by exists fs1, a.
  - intros [= -> ->]. by left.
Qed.

Lemma bind_assoc {A B C} (m : Script A) (k : A -> Script B) (h : B -> Script C) fs :
  (let* y := (let* x := m in k x) in h y) fs
  = (let* x := m in let* y := k x in h y) fs.
Proof. unfold bind. by destruct (m fs) as [fs1 [a | e]]. Qed.

Lemma forEach_app l1 l2 f fs :
  forEach (l1 ++ l2) f fs = (let* _ := forEach l1 f in forEach l2 f) fs.
Proof.
  revert fs. induction l1 as [| x l1 IH]; intros fs; simpl; [done |].
  rewrite bind_assoc. unfold bind at 1 2.
  destruct (f x fs) as [fs1 [[] | e]]; [apply IH | done].
Qed.

(** A loop that throws has completed a prefix of the list and thrown on the
    next element. *)
Lemma forEach_throw_inv l f fs fs' e :
  forEach l f fs = (fs', Throw e) ->
  ∃ pre x rest fs1,
    l = (pre ++ x :: rest)%list
    ∧ forEach pre f fs = (fs1, Normal tt)
    ∧ f x fs1 = (fs', Throw e).
Proof.
  revert fs. induction l as [| x l IH]; intros fs; simpl; [done |].
  intros [H | (fs1 & [] & Hx & Hl)]%bind_throw_inv.
  - by exists [], x, l, fs.
  - destruct (IH _ Hl) as (pre & y & rest & fs2 & -> & Hpre & Hy).
    exists (x :: pre), y, rest, fs2. split; [done |]. split; [| done].
    simpl. by rewrite (bind_normal _ _ _ _ _ Hx).
Qed.

Lemma existsSync_eq name fs :
  existsSync name fs = (fs, Normal (bool_decide (is_Some (fs !! name)))).
Proof. done. Qed.

Lemma lookup_moved d n fs k :
  d ≠ exampleDir ->
  moved d n fs !! k =
    if decide (k = exampleDir) then Some (Directory (<[d := n]> (archive fs)))
    else if decide (k = d) then None else fs !! k.
Proof.
  intros Hd. unfold moved. case_decide as Hk.
  - subst k. by rewrite lookup_insert_eq.
  - rewrite lookup_insert_ne by done. case_decide as Hkd.
    + subst k. by rewrite lookup_delete_eq.
    + by rewrite lookup_delete_ne.
Qed.

Lemma archive_moved d n fs : archive (moved d n fs) = <[d := n]> (archive fs).
Proof. unfold archive at 1, moved. by rewrite lookup_insert_eq. Qed.

Variable denied : gset string.

Lemma processDir_absent u d fs :
  fs !! d = None -> processDir denied u d fs = (fs, Normal tt).
Proof.
  intros H. unfold processDir, bind. rewrite existsSync_eq, H.
  rewrite bool_decide_eq_false_2; [done |]. by intros [? ?].
Qed.

(** What [mkdir exampleDir] leaves: the archive directory, with the entries
    it had. *)
Lemma mkdir_archive fs :
  (∀ c, fs !! exampleDir ≠ Some (File c)) ->
  mkdir exampleDir fs = (<[exampleDir := Directory (archive fs)]> fs, Normal tt).
Proof.
  intros Hf. unfold mkdir, archive.
  destruct (fs !! exampleDir) as [[c | entries] |] eqn:He.
  - by destruct (Hf c).
  - by rewrite insert_id.
  - done.
Qed.

Lemma mkdir_normal_inv fs fs' :
  mkdir exampleDir fs = (fs', Normal tt) ->
  (∀ c, fs !! exampleDir ≠ Some (File c))
  ∧ fs' = <[exampleDir := Directory (archive fs)]> fs.
Proof.
  intros Hrun.
  assert (∀ c, fs !! exampleDir ≠ Some (File c)) as Hf.
  { intros c Hc. revert Hrun. unfold mkdir. by rewrite Hc. }
  rewrite (mkdir_archive fs Hf) in Hrun. by injection Hrun as <-.
Qed.

Lemma mkdir_throw_inv name fs fs' e : mkdir name fs = (fs', Throw e) -> fs' = fs.
Proof.
  unfold mkdir. destruct (fs !! name) as [[c | entries] |]; [| done | done].
  by intros [= <- _].
Qed.

Lemma rename_ok name dst n entries fs :
  fs !! name = Some n -> name ≠ dst ->
  name ∉ denied ∨ isDirectory n = false ->
  dst ∉ denied ->
  fs !! dst = Some (Directory entries) ->
  collision n (entries !! name) = None ->
  rename denied name dst fs
  = (<[dst := Directory (<[name := n]> entries)]> (delete name fs), Normal tt).
Proof.
  intros Hn Hne Hden Hdst He Hc. unfold rename.
  rewrite Hn, (bool_decide_eq_false_2 _ Hne).
  assert (bool_decide (name ∈ denied) && isDirectory n = false) as ->.
  { destruct Hden as [H | ->]; [| apply andb_false_r].
    by rewrite (bool_decide_eq_false_2 _ H). }
  by rewrite (bool_decide_eq_false_2 _ Hdst), He, Hc.
Qed.

Lemma rename_normal_inv name dst fs fs' :
  rename denied name dst fs = (fs', Normal tt) ->
  ∃ n entries,
    fs !! name = Some n ∧ name ≠ dst
    ∧ (name ∉ denied ∨ isDirectory n = false)
    ∧ (dst ∉ denied)
    ∧ fs !! dst = Some (Directory entries)
    ∧ collision n (entries !! name) = None
    ∧ fs' = <[dst := Directory (<[name := n]> entries)]> (delete name fs).
Proof.
  unfold rename. destruct (fs !! name) as [n |] eqn:Hn; [| done].
  case_bool_decide as Hne; [done |].
  destruct (bool_decide (name ∈ denied) && isDirectory n) eqn:Hden; [done |].
  destruct (bool_decide (dst ∈ denied)) eqn:Hdst; [done |].
  apply bool_decide_eq_false_1 in Hdst.
  destruct (fs !! dst) as [[c | entries] |] eqn:He; [done | | done].
  destruct (collision n (entries !! name)) eqn:Hc; [done |].
  intros [= <-]. exists n, entries. repeat split; try done.
  apply andb_false_iff in Hden as [Hden | Hden]; [left | by right].
  by apply bool_decide_eq_false_1 in Hden.
Qed.

Lemma rename_throw_inv name dst fs fs' e :
  rename denied name dst fs = (fs', Throw e) -> fs' = fs.
Proof.
  unfold rename. destruct (fs !! name) as [n |]; [| by intros [= <- _]].
  case_bool_decide; [by intros [= <- _] |].
  destruct (bool_decide (name ∈ denied) && isDirectory n); [by intros [= <- _] |].
  destruct (bool_decide (dst ∈ denied)); [by intros [= <- _] |].
  destruct (fs !! dst) as [[c | entries] |];
    [by intros [= <- _] | | by intros [= <- _]].
  destruct (collision n (entries !! name)); [by intros [= <- _] | done].
Qed.

Lemma rm_ok d fs : removable denied fs d -> rm denied d fs = (delete d fs, Normal tt).
Proof.
  intros Hrem. unfold rm.
  destruct (fs !! d) as [[c | entries] |] eqn:Hd; [done | | done].
  case_bool_decide as Hden; [| done].
  destruct Hrem as [H | H]; [done |].
  by rewrite (H entries Hd), map_to_list_empty.
Qed.

Lemma rm_normal_inv d fs fs' :
  rm denied d fs = (fs', Normal tt) -> removable denied fs d ∧ fs' = delete d fs.
Proof.
  unfold rm, removable.
  destruct (fs !! d) as [[c | entries] |] eqn:Hd.
  - intros [= <-]. split; [by right | done].
  - case_bool_decide as Hden.
    + destruct (map_to_list entries) as [| [k child] l] eqn:Hl; [| done].
      intros [= <-]. split; [| done]. right. intros e [= <-].
      by apply map_to_list_empty_iff.
    + intros [= <-]. split; [by left | done].
  - intros [= <-]. split; [by right | done].
Qed.

Lemma rm_throw_inv d fs fs' e :
  rm denied d fs = (fs', Throw e) ->
  ∃ entries, fs !! d = Some (Directory entries)
             ∧ fs' = <[d := Directory (emptied entries)]> fs.
Proof.
  unfold rm.
  destruct (fs !! d) as [[c | entries] |] eqn:Hd; [done | | done].
  case_bool_decide as Hden; [| done].
  destruct (map_to_list entries) as [| [k child] l]; [done |].
  intros [= <- _]. by exists entries.
Qed.

Lemma removable_ext fs1 fs2 d :
  fs1 !! d = fs2 !! d -> removable denied fs1 d -> removable denied fs2 d.
Proof. unfold removable. intros H. by rewrite H. Qed.

(** Deleting: a step is the removal, refused or not. *)
Lemma processDir_delete_rm u d fs :
  preserve u = false -> processDir denied u d fs = rm denied d fs.
Proof.
  intros Hu. unfold processDir, bind. rewrite existsSync_eq, Hu.
  case_bool_decide as Hd; [done |].
  assert (fs !! d = None) as Hn.
  { destruct (fs !! d) eqn:H; [| done]. destruct Hd. by eexists. }
  unfold rm. by rewrite Hn, delete_id.
Qed.

Lemma processDir_remove u d fs :
  preserve u = false -> removable denied fs d ->
  processDir denied u d fs = (delete d fs, Normal tt).
Proof. intros Hu Hrem. rewrite (processDir_delete_rm u d fs Hu). by apply rm_ok. Qed.

Lemma processDir_remove_inv u d fs fs' :
  preserve u = false ->
  processDir denied u d fs = (fs', Normal tt) ->
  removable denied fs d ∧ fs' = delete d fs.
Proof. intros Hu. rewrite (processDir_delete_rm u d fs Hu). apply rm_normal_inv. Qed.

(** Preserving: a step on a name that exists is [mkdir] and [rename]. *)
Lemma processDir_preserve_eq u d n fs :
  preserve u = true -> fs !! d = Some n ->
  processDir denied u d fs
  = (let* _ := mkdir exampleDir in rename denied d exampleDir) fs.
Proof.
  intros Hu H. unfold processDir. unfold bind at 1.
  by rewrite existsSync_eq, H, Hu, bool_decide_eq_true_2.
Qed.

Lemma processDir_move u d n fs :
  preserve u = true -> fs !! d = Some n -> d ≠ exampleDir ->
  movable denied fs d n ->
  processDir denied u d fs = (moved d n fs, Normal tt).
Proof.
  intros Hu H Hd (Hf & Hed & Hden & Hc).
  rewrite (processDir_preserve_eq u d n fs Hu H).
  rewrite (bind_normal _ _ _ _ _ (mkdir_archive fs Hf)).
  rewrite (rename_ok d exampleDir n (archive fs)); try done.
  - unfold moved. by rewrite delete_insert_ne, insert_insert_eq.
  - by rewrite lookup_insert_ne.
  - by rewrite lookup_insert_eq.
Qed.

Lemma processDir_move_inv u d fs fs' :
  preserve u = true ->
  processDir denied u d fs = (fs', Normal tt) ->
  (fs !! d = None ∧ fs' = fs)
  ∨ (∃ n, fs !! d = Some n ∧ d ≠ exampleDir ∧ movable denied fs d n
          ∧ fs' = moved d n fs).
Proof.
  intros Hu. destruct (fs !! d) as [n |] eqn:H.
  2:{ rewrite (processDir_absent u d fs H). intros [= <-]. by left. }
  rewrite (processDir_preserve_eq u d n fs Hu H).
  intros (fs1 & [] & [Hf ->]%mkdir_normal_inv & Hren)%bind_normal_inv.
  apply rename_normal_inv in Hren
    as (n' & entries & Hn' & Hne & Hden & Hed & He & Hc & ->).
  rewrite lookup_insert_ne in Hn' by done. rewrite lookup_insert_eq in He.
  assert (n' = n) as -> by congruence. injection He as <-.
  right. exists n. repeat split; try done.
  unfold moved. by rewrite delete_insert_ne, insert_insert_eq.
Qed.

Lemma emptied_file entries f c :
  emptied entries !! f = Some (File c) -> entries !! f = Some (File c).
Proof.
  unfold emptied. rewrite lookup_fmap.
  by destruct (entries !! f) as [[c' | e] |].
Qed.

(** A step that throws leaves every entry but the archive and its own as
    they were; of its own entry, at most the sub-directories have been
    emptied. *)
Lemma processDir_throw_frame u d fs fs' e :
  processDir denied u d fs = (fs', Throw e) ->
  (∀ k, k ≠ exampleDir -> k ≠ d -> fs' !! k = fs !! k)
  ∧ (d ≠ exampleDir ->
     ∀ f c, walk [f] <$> fs' !! d = Some (Some (File c)) ->
            walk [f] <$> fs !! d = Some (Some (File c))).
Proof.
  destruct (preserve u) eqn:Hu.
  - destruct (fs !! d) as [n |] eqn:H.
    2:{ by rewrite (processDir_absent u d fs H). }
    rewrite (processDir_preserve_eq u d n fs Hu H). intros Hrun.
    assert (∀ k, k ≠ exampleDir -> fs' !! k = fs !! k) as Hframe.
    { apply bind_throw_inv in Hrun as [Hmk | (fs1 & [] & Hmk & Hren)].
      - apply mkdir_throw_inv in Hmk as ->. done.
      - apply mkdir_normal_inv in Hmk as [_ ->].
        apply rename_throw_inv in Hren as ->.
        intros k Hk. by rewrite lookup_insert_ne. }
    split; [by auto |]. intros Hd f c. by rewrite (Hframe d Hd), H.
  - rewrite (processDir_delete_rm u d fs Hu).
    intros (entries & Hd & ->)%rm_throw_inv. split.
    + intros k _ Hk. by rewrite lookup_insert_ne.
    + intros _ f c. rewrite lookup_insert_eq, Hd. simpl.
      destruct (emptied entries !! f) as [n |] eqn:Hf; [| done].
      destruct n as [c' |]; simpl; [| done]. intros [= <-].
      by rewrite (emptied_file entries f c' Hf).
Qed.

(** *** The loop over the source set *)

Lemma processDirs_cons x l u fs :
  processDirs denied (x :: l) u fs
  = (let* _ := processDir denied u x in processDirs denied l u) fs.
Proof. done. Qed.

Lemma processDirs_cons_inv x l u fs fs' :
  processDirs denied (x :: l) u fs = (fs', Normal tt) ->
  ∃ fs1, processDir denied u x fs = (fs1, Normal tt)
         ∧ processDirs denied l u fs1 = (fs', Normal tt).
Proof.
  rewrite processDirs_cons. intros (fs1 & [] & H1 & H2)%bind_normal_inv.
  by exists fs1.
Qed.

(** Deleting: a completed loop has removed exactly the listed names. *)
Lemma processDirs_delete_inv l u fs fs' :
  preserve u = false ->
  processDirs denied l u fs = (fs', Normal tt) ->
  fs' = foldr delete fs l.
Proof.
  intros Hu. revert fs. induction l as [| x l IH]; intros fs.
  { by intros [= <-]. }
  intros (fs1 & Hx & Hl)%processDirs_cons_inv.
  apply IH in Hl. subst fs'. simpl. rewrite delete_foldr_delete. f_equal.
  by destruct (processDir_remove_inv u x fs fs1 Hu Hx) as [_ ->].
Qed.


(** Preserving: what a completed loop has done, entry by entry. *)
Lemma processDirs_preserve_inv l u fs fs' :
  preserve u = true ->
  exampleDir ∉ l ->
  processDirs denied l u fs = (fs', Normal tt) ->
  (∀ k, k ∈ l -> fs' !! k = None)
  ∧ (∀ k, k ∉ l -> k ≠ exampleDir -> fs' !! k = fs !! k)
  ∧ (∀ k n, k ∈ l -> fs !! k = Some n -> archive fs' !! k = Some n)
  ∧ (∀ k, k ∉ l ∨ fs !! k = None -> archive fs' !! k = archive fs !! k)
  ∧ ((∃ e, fs !! exampleDir = Some (Directory e)) ->
     ∃ e, fs' !! exampleDir = Some (Directory e))
  ∧ ((∃ k, k ∈ l ∧ is_Some (fs !! k)) ->
     ∃ e, fs' !! exampleDir = Some (Directory e)).
Proof.
  intros Hu. revert fs. induction l as [| x l IH]; intros fs Hex.
  { intros [= <-]. repeat split; try done.
    - intros k Hk. by apply elem_of_nil in Hk.
    - intros k n Hk. by apply elem_of_nil in Hk.
    - intros (k & Hk & _). by apply elem_of_nil in Hk. }
  apply not_elem_of_cons in Hex as [Hxe Hex].
  intros (fs1 & Hx & Hl)%processDirs_cons_inv.
  destruct (IH fs1 Hex Hl) as (P1 & P2 & P3 & P4 & P5 & P6). clear IH.
  destruct (processDir_move_inv u x fs fs1 Hu Hx)
    as [[Hn ->] | (n & Hn & _ & _ & ->)].
  - (* [x] is absent: nothing done for it *)
    repeat split.
    + intros k [-> | Hk]%elem_of_cons; [| by apply P1].
      destruct (decide (x ∈ l)); [by apply P1 |]. by rewrite P2.
    + intros k [Hkx Hk]%not_elem_of_cons. by apply P2.
    + intros k m [-> | Hk]%elem_of_cons; [congruence | by apply P3].
    + intros k [[_ Hk]%not_elem_of_cons | Hk]; apply P4; [by left | by right].
    + done.
    + intros (k & [-> | Hk]%elem_of_cons & Hs).
      * rewrite Hn in Hs. by destruct Hs.
      * apply P6. by exists k.
  - (* [x] is moved under the archive *)
    assert (∀ k, k ≠ x -> k ≠ exampleDir -> moved x n fs !! k = fs !! k) as Hfr.
    { intros k Hkx Hke. rewrite lookup_moved by done.
      by rewrite !decide_False. }
    assert (moved x n fs !! x = None) as Hgone.
    { rewrite lookup_moved by done. by rewrite decide_False, decide_True. }
    assert (∃ e, moved x n fs !! exampleDir = Some (Directory e)) as Hdir.
    { rewrite lookup_moved by done. rewrite decide_True by done. by eexists. }
    repeat split.
    + intros k [-> | Hk]%elem_of_cons; [| by apply P1].
      destruct (decide (x ∈ l)); [by apply P1 |]. by rewrite P2.
    + intros k [Hkx Hk]%not_elem_of_cons Hke. rewrite P2 by done. by apply Hfr.
    + intros k m [-> | Hk]%elem_of_cons Hm.
      * rewrite P4 by (by right). rewrite archive_moved, lookup_insert_eq.
        congruence.
      * destruct (decide (k = x)) as [-> | Hkx].
        -- rewrite P4 by (by right). rewrite archive_moved, lookup_insert_eq.
           congruence.
        -- apply P3; [done |]. rewrite Hfr; [done | done |].
           intros ->. done.
    + intros k Hk.
      assert (k ≠ x) as Hkx.
      { intros ->. destruct Hk as [Hk | Hk]; [| congruence].
        apply Hk. by left. }
      rewrite P4, archive_moved, lookup_insert_ne; [done | done |].
      destruct Hk as [[_ Hk]%not_elem_of_cons | Hk]; [by left |].
      destruct (decide (k = exampleDir)) as [-> | Hke]; [by left |].
      right. by rewrite Hfr.
    + intros _. by apply P5.
    + intros _. by apply P5.
Qed.

(** Preserving: the loop completes when every listed name that exists can
    be moved. *)
Lemma processDirs_preserve_ok l u fs :
  preserve u = true ->
  exampleDir ∉ l ->
  (∀ d n, d ∈ l -> fs !! d = Some n -> movable denied fs d n) ->
  ∃ fs', processDirs denied l u fs = (fs', Normal tt).
Proof.
  intros Hu. revert fs.
  induction l as [| x l IH]; intros fs Hex Hmov.
  { by exists fs. }
  apply not_elem_of_cons in Hex as [Hxe Hex].
  rewrite processDirs_cons.
  destruct (fs !! x) as [n |] eqn:Hx.
  - assert (processDir denied u x fs = (moved x n fs, Normal tt)) as Hstep.
    { apply processDir_move; try done. apply Hmov; [by left | done]. }
    rewrite (bind_normal _ _ _ _ _ Hstep). apply IH; [done |].
    intros d m Hd. rewrite lookup_moved by done.
    assert (d ≠ exampleDir) as Hde by (by intros ->).
    rewrite decide_False by done. case_decide as Hdx; [done |].
    intros Hm.
    assert (d ∈ x :: l) as Hd' by (apply elem_of_cons; by right).
    destruct (Hmov d m Hd' Hm) as (Hf & Hed & Hden & Hc).
    split; [| split; [done | split; [done |]]].
    + intros c. rewrite lookup_moved by done. by rewrite decide_True.
    + by rewrite archive_moved, lookup_insert_ne.
  - rewrite (bind_normal _ _ _ _ _ (processDir_absent u x fs Hx)).
    apply IH; [done |]. intros d m Hd. apply Hmov. by right.
Qed.

(** *** The entry point and the replacement files *)

Lemma finish_blank fs :
  fs !! newAppDir = None ->
  (let* _ := mkdir newAppDir in
   let* _ := writeFile newAppDir indexFile indexContent in
   writeFile newAppDir layoutFile layoutContent) fs
  = (<[newAppDir := Directory blankApp]> fs, Normal tt).
Proof.
  intros Habs. unfold bind, mkdir. rewrite Habs.
  unfold writeFile at 1. rewrite lookup_insert_eq, lookup_empty.
  rewrite insert_insert_eq.
  unfold writeFile. rewrite lookup_insert_eq.
  rewrite lookup_insert_ne by done. rewrite lookup_empty.
  by rewrite insert_insert_eq.
Qed.

Lemma oldDirs_newAppDir : newAppDir ∈ oldDirs.
Proof. by left. Qed.

Lemma oldDirs_exampleDir : exampleDir ∉ oldDirs.
Proof.
  unfold oldDirs. rewrite !not_elem_of_cons.
  repeat split; try done. apply not_elem_of_nil.
Qed.

(** A completed loop over a list that names the entry point leaves no entry
    of that name. *)
Lemma processDirs_clears l u fs fs' k :
  exampleDir ∉ l -> k ∈ l ->
  processDirs denied l u fs = (fs', Normal tt) ->
  fs' !! k = None.
Proof.
  intros Hex Hk Hrun. destruct (preserve u) eqn:Hu.
  - by apply (processDirs_preserve_inv l u fs fs' Hu Hex Hrun).
  - rewrite (processDirs_delete_inv l u fs fs' Hu Hrun).
    by apply lookup_foldr_delete.
Qed.

(** The body of the [try] block completes exactly when the loop does, and
    then leaves the blank entry point beside what the loop left. *)
Lemma scriptOperations_normal u fs fs1 :
  processDirs denied oldDirs u fs = (fs1, Normal tt) ->
  scriptOperations denied u fs = (<[newAppDir := Directory blankApp]> fs1, Normal tt).
Proof.
  intros Hrun. unfold scriptOperations.
  rewrite (bind_normal _ _ _ _ _ Hrun). apply finish_blank.
  apply (processDirs_clears oldDirs u fs fs1 newAppDir);
    [apply oldDirs_exampleDir | apply oldDirs_newAppDir | done].
Qed.

Lemma scriptOperations_throw u fs fs1 e :
  processDirs denied oldDirs u fs = (fs1, Throw e) ->
  scriptOperations denied u fs = (fs1, Throw e).
Proof. intros Hrun. unfold scriptOperations. by rewrite (bind_throw _ _ _ _ _ Hrun). Qed.

Lemma resetProject_normal answer fs fs1 :
  processDirs denied oldDirs (Prompt.userInput answer) fs = (fs1, Normal tt) ->
  resetProject denied answer fs
  = (<[newAppDir := Directory blankApp]> fs1, started).
Proof.
  intros Hrun. unfold resetProject, moveDirectories, try_catch.
  by rewrite (scriptOperations_normal _ _ _ Hrun).
Qed.

Lemma resetProject_throw answer fs fs1 e :
  processDirs denied oldDirs (Prompt.userInput answer) fs = (fs1, Throw e) ->
  resetProject denied answer fs = (fs1, onError e started).
Proof.
  intros Hrun. unfold resetProject, moveDirectories, try_catch.
  by rewrite (scriptOperations_throw _ _ _ _ Hrun).
Qed.

(** A run reported no error exactly when the loop completed. *)
Lemma succeeded_inv answer fs :
  succeeded (resetProject denied answer fs) ->
  ∃ fs1, processDirs denied oldDirs (Prompt.userInput answer) fs = (fs1, Normal tt)
         ∧ resetProject denied answer fs
           = (<[newAppDir := Directory blankApp]> fs1, started).
Proof.
  destruct (processDirs denied oldDirs (Prompt.userInput answer) fs)
    as [fs1 [[] | e]] eqn:Hrun.
  - intros _. exists fs1. split; [done |]. by apply resetProject_normal.
  - rewrite (resetProject_throw _ _ _ _ Hrun). unfold succeeded. simpl.
    discriminate.
Qed.

(** *** Two steps of the loop, in either order *)

Lemma moved_moved x n y m fs :
  x ≠ y -> x ≠ exampleDir -> y ≠ exampleDir ->
  moved x n (moved y m fs) = moved y m (moved x n fs).
Proof.
  intros Hxy Hx Hy. apply map_eq. intros k.
  rewrite !lookup_moved, !archive_moved by done.
  repeat case_decide; try done.
  by rewrite insert_insert_ne.
Qed.

Lemma processDir_swap u x y fs fs' :
  x ≠ exampleDir -> y ≠ exampleDir ->
  (let* _ := processDir denied u x in processDir denied u y) fs = (fs', Normal tt) ->
  (let* _ := processDir denied u y in processDir denied u x) fs = (fs', Normal tt).
Proof.
  intros Hx Hy. destruct (decide (x = y)) as [-> | Hxy]; [done |].
  intros (fs1 & [] & H1 & H2)%bind_normal_inv.
  destruct (preserve u) eqn:Hu.
  2:{ (* deleting: two removals *)
    apply (processDir_remove_inv u x fs fs1 Hu) in H1 as [Hrx ->].
    apply (processDir_remove_inv u y _ fs' Hu) in H2 as [Hry ->].
    assert (removable denied fs y) as Hry'.
    { apply (removable_ext (delete x fs)); [by rewrite lookup_delete_ne | done]. }
    rewrite (bind_normal _ _ _ _ _ (processDir_remove u y fs Hu Hry')).
    rewrite delete_delete. apply processDir_remove; [done |].
    apply (removable_ext fs); [by rewrite lookup_delete_ne | done]. }
  destruct (processDir_move_inv u x fs fs1 Hu H1)
    as [[Hn ->] | (n & Hn & _ & (Hf & Hed & Hdx & Ha) & ->)].
  - (* [x] is absent *)
    rewrite (bind_normal _ _ _ _ _ H2). apply processDir_absent.
    destruct (processDir_move_inv u y fs fs' Hu H2)
      as [[_ ->] | (m & _ & _ & _ & ->)]; [done |].
    rewrite lookup_moved by done. by rewrite !decide_False.
  - (* [x] is moved *)
    destruct (processDir_move_inv u y _ fs' Hu H2)
      as [[Hm ->] | (m & Hm & _ & (_ & _ & Hdy & Hb) & ->)].
    + rewrite lookup_moved in Hm by done. rewrite !decide_False in Hm by done.
      rewrite (bind_normal _ _ _ _ _ (processDir_absent u y fs Hm)).
      by apply processDir_move.
    + rewrite lookup_moved in Hm by done. rewrite !decide_False in Hm by done.
      rewrite archive_moved, lookup_insert_ne in Hb by done.
      assert (movable denied fs y m) as Hmy by done.
      rewrite (bind_normal _ _ _ _ _ (processDir_move u y m fs Hu Hm Hy Hmy)).
      rewrite (moved_moved y m x n) by done.
      apply processDir_move; try done.
      * rewrite lookup_moved by done. by rewrite !decide_False.
      * split; [| split; [done | split; [done |]]].
        -- intros c. rewrite lookup_moved by done. by rewrite decide_True.
        -- by rewrite archive_moved, lookup_insert_ne.
Qed.

(** A loop that completes in one order completes in every order, with the
    same tree. *)
Lemma processDirs_Permutation l l' u :
  l ≡ₚ l' ->
  exampleDir ∉ l ->
  ∀ fs fs',
    processDirs denied l u fs = (fs', Normal tt) ->
    processDirs denied l' u fs = (fs', Normal tt).
Proof.
  induction 1 as [| x l l' Hperm IH | x y l | l l' l'' Hp1 IH1 Hp2 IH2];
    intros Hex fs fs'.
  - done.
  - apply not_elem_of_cons in Hex as [Hxe Hex].
    intros (fs1 & Hx & Hl)%processDirs_cons_inv.
    rewrite processDirs_cons, (bind_normal _ _ _ _ _ Hx). by apply IH.
  - apply not_elem_of_cons in Hex as [Hye Hex].
    apply not_elem_of_cons in Hex as [Hxe Hex].
    intros (fs1 & Hy & (fs2 & Hx & Hl)%processDirs_cons_inv)%processDirs_cons_inv.
    assert ((let* _ := processDir denied u y in processDir denied u x) fs
            = (fs2, Normal tt)) as Hyx
      by (by rewrite (bind_normal _ _ _ _ _ Hy)).
    apply processDir_swap in Hyx; [| done | done].
    apply bind_normal_inv in Hyx as (fs3 & [] & Hx' & Hy').
    rewrite processDirs_cons, (bind_normal _ _ _ _ _ Hx').
    by rewrite processDirs_cons, (bind_normal _ _ _ _ _ Hy').
  - intros H. apply IH2; [| by apply IH1].
    intros Hin. apply Hex. by rewrite Hp1.
Qed.

Lemma processDirs_absent l u fs :
  (∀ d, d ∈ l -> fs !! d = None) ->
  processDirs denied l u fs = (fs, Normal tt).
Proof.
  induction l as [| x l IH]; intros Habs; [done |].
  rewrite processDirs_cons.
  rewrite (bind_normal _ _ _ _ _ (processDir_absent u x fs (Habs x ltac:(by left)))).
  apply IH. intros d Hd. apply Habs. by right.
Qed.

End ScriptFacts.

(** ** The reset as a whole *)

Section ResetFacts.
Import Fs Reset.

Lemma resolve_cons k p (fs : tree) :
  resolve (k :: p) fs = match fs !! k with Some n => walk p n | None => None end.
Proof. done. Qed.

Lemma blankApp_index : blankApp !! indexFile = Some (File indexContent).
Proof. unfold blankApp. by rewrite lookup_insert_ne, lookup_insert_eq. Qed.

Lemma blankApp_layout : blankApp !! layoutFile = Some (File layoutContent).
Proof. unfold blankApp. by rewrite lookup_insert_eq. Qed.

Lemma blankApp_other k : k ≠ indexFile -> k ≠ layoutFile -> blankApp !! k = None.
Proof.
  intros Hi Hl. unfold blankApp. by rewrite !lookup_insert_ne, lookup_empty.
Qed.

(** The only files below the blank entry point are the two replacement
    files. *)
Lemma walk_blankApp p c :
  walk p (Directory blankApp) = Some (File c) ->
  (p = [indexFile] ∧ c = indexContent) ∨ (p = [layoutFile] ∧ c = layoutContent).
Proof.
  destruct p as [| k p]; [done |]. simpl.
  destruct (decide (k = indexFile)) as [-> | Hi].
  { rewrite blankApp_index. destruct p; simpl; [| done].
    intros [= <-]. by left. }
  destruct (decide (k = layoutFile)) as [-> | Hl].
  { rewrite blankApp_layout. destruct p; simpl; [| done].
    intros [= <-]. by right. }
  by rewrite (blankApp_other k Hi Hl).
Qed.

Lemma archive_lookup (fs : tree) e :
  fs !! exampleDir = Some (Directory e) -> archive fs = e.
Proof. intros H. unfold archive. by rewrite H. Qed.

Lemma onError_started e :
  onError e started
  = {| stderr := ["❌ Error during script execution: " +:+ message e];
       exitCode := 0 |}.
Proof. done. Qed.

End ResetFacts.

(** C1, as the code has it: after every successful run, whatever the
    answer, no directory of the source set other than [app] exists at the
    top level, and [app] exists and holds exactly the two replacement files
    with their fixed contents. *)
Theorem successful_run_leaves_blank_app
  (denied : gset string) (answer : string) (fs : Fs.tree) :
  Reset.succeeded (Reset.resetProject denied answer fs) ->
  (∀ d, d ∈ Reset.oldDirs -> d ≠ Reset.newAppDir ->
        fst (Reset.resetProject denied answer fs) !! d = None)
  ∧ fst (Reset.resetProject denied answer fs) !! Reset.newAppDir
    = Some (Fs.Directory Reset.blankApp)
  ∧ Reset.blankApp !! Reset.indexFile = Some (Fs.File Reset.indexContent)
  ∧ Reset.blankApp !! Reset.layoutFile = Some (Fs.File Reset.layoutContent)
  ∧ (∀ k, k ≠ Reset.indexFile -> k ≠ Reset.layoutFile -> Reset.blankApp !! k = None).
Proof.
  intros (fs1 & Hloop & ->)%succeeded_inv. simpl.
  split; [| split; [| split; [| split]]].
  - intros d Hd Hne. rewrite lookup_insert_ne by done.
    exact (processDirs_clears denied Reset.oldDirs _ fs fs1 d
             oldDirs_exampleDir Hd Hloop).
  - by rewrite lookup_insert_eq.
  - apply blankApp_index.
  - apply blankApp_layout.
  - apply blankApp_other.
Qed.

Lemma successful_run_leaves_blank_app_witness :
  Reset.succeeded (Reset.resetProject ∅ "n" Reset.templateProject)
  ∧ fst (Reset.resetProject ∅ "n" Reset.templateProject) !! "hooks" = None
  ∧ fst (Reset.resetProject ∅ "n" Reset.templateProject) !! Reset.newAppDir
    = Some (Fs.Directory Reset.blankApp).
Proof.
  assert (Reset.succeeded (Reset.resetProject ∅ "n" Reset.templateProject)) as Hok
    by (vm_compute; reflexivity).
  destruct (successful_run_leaves_blank_app ∅ "n" Reset.templateProject Hok)
    as (Hgone & Happ & _).
  split; [exact Hok |]. split; [| exact Happ].
  apply Hgone; [| done]. unfold Reset.oldDirs. rewrite !elem_of_cons. tauto.
Defined.

(** C6: when no name of the source set exists in the project, the run
    reports no error, whatever the answer and whatever the operating system
    would refuse, and writes the two replacement files with their fixed
    contents, leaving the rest of the project as it was. *)
Theorem absent_sources_are_skipped
  (denied : gset string) (answer : string) (fs : Fs.tree) :
  Reset.noSourcePresent fs ->
  Reset.resetProject denied answer fs
  = (<[Reset.newAppDir := Fs.Directory Reset.blankApp]> fs, Reset.started)
  ∧ Reset.succeeded (Reset.resetProject denied answer fs)
  ∧ Fs.resolve [Reset.newAppDir; Reset.indexFile]
      (fst (Reset.resetProject denied answer fs)) = Some (Fs.File Reset.indexContent)
  ∧ Fs.resolve [Reset.newAppDir; Reset.layoutFile]
      (fst (Reset.resetProject denied answer fs)) = Some (Fs.File Reset.layoutContent).
Proof.
  intros Habs.
  pose proof (resetProject_normal denied answer fs fs
                (processDirs_absent denied Reset.oldDirs _ fs Habs)) as Hrun.
  rewrite Hrun. split; [done |]. split; [done |]. simpl.
  rewrite !resolve_cons, lookup_insert_eq. simpl.
  by rewrite blankApp_index, blankApp_layout.
Qed.

Lemma absent_sources_are_skipped_witness :
  Reset.noSourcePresent (<["README.md" := Fs.File "readme"]> ∅)
  ∧ Reset.succeeded
      (Reset.resetProject {["app"]} "n" (<["README.md" := Fs.File "readme"]> ∅))
  ∧ Fs.resolve [Reset.newAppDir; Reset.indexFile]
      (fst (Reset.resetProject {["app"]} "n" (<["README.md" := Fs.File "readme"]> ∅)))
    = Some (Fs.File Reset.indexContent).
Proof.
  assert (Reset.noSourcePresent (<["README.md" := Fs.File "readme"]> ∅)) as Habs.
  { intros d Hd. unfold Reset.oldDirs in Hd. rewrite !elem_of_cons in Hd.
    destruct Hd as [-> | [-> | [-> | [-> | [-> | Hd]]]]]; try reflexivity.
    by apply elem_of_nil in Hd. }
  destruct (absent_sources_are_skipped {["app"]} "n" _ Habs) as (_ & Hok & Hi & _).
  split; [exact Habs |]. split; [exact Hok | exact Hi].
Defined.

Section MarkerFacts.
Import Fs Reset.



End MarkerFacts.


Lemma template_marker :
  Reset.marker Reset.templateProject "hooks" ["marker.txt"] "H".
Proof.
  split; [| split; [reflexivity | split; discriminate]].
  unfold Reset.oldDirs. rewrite !elem_of_cons. tauto.
Defined.



(** C2, as the code has it: when preserve is chosen and nothing stands in
    the way of a move (the archive path is not a file, no read-only
    directory is involved, and what the archive already holds under the
    name of a source entry can be replaced by it: nothing, a file by a file,
    an empty directory by a directory), the run completes, everything that
    was in a source directory, so every marker file, is reachable under the
    archive directory at its old path, nothing remains at the path of a
    source directory other than the new [app], and no marker file remains
    at its original path. *)
Theorem preserve_moves_markers
  (denied : gset string) (answer : string) (fs : Fs.tree) :
  Reset.preserve (Prompt.userInput answer) = true ->
  Reset.unobstructed denied fs ->
  Reset.succeeded (Reset.resetProject denied answer fs)
  ∧ (∀ d p n, d ∈ Reset.oldDirs -> Fs.resolve (d :: p) fs = Some n ->
       Fs.resolve (Reset.exampleDir :: d :: p)
         (fst (Reset.resetProject denied answer fs)) = Some n)
  ∧ (∀ d p, d ∈ Reset.oldDirs -> d ≠ Reset.newAppDir ->
       Fs.resolve (d :: p) (fst (Reset.resetProject denied answer fs)) = None)
  ∧ (∀ d p c, Reset.marker fs d p c ->
       Fs.resolve (d :: p) (fst (Reset.resetProject denied answer fs))
       ≠ Some (Fs.File c)).
Proof.
  intros Hu Hmov.
  destruct (processDirs_preserve_ok denied Reset.oldDirs _ fs Hu
              oldDirs_exampleDir Hmov) as [fs1 Hloop].
  rewrite (resetProject_normal denied answer fs fs1 Hloop). cbn [fst].
  destruct (processDirs_preserve_inv denied Reset.oldDirs _ fs fs1 Hu
              oldDirs_exampleDir Hloop) as (P1 & _ & P3 & _ & _ & P6).
  split; [done |]. split; [| split].
  - intros d p n Hd. rewrite !resolve_cons.
    destruct (fs !! d) as [n0 |] eqn:Hn0; [| done]. intros Hwalk.
    rewrite lookup_insert_ne by done.
    destruct P6 as [e He]; [exists d; by eauto |].
    rewrite He. simpl.
    rewrite <- (archive_lookup fs1 e He), (P3 d n0 Hd Hn0). exact Hwalk.
  - intros d p Hd Hne. rewrite resolve_cons, lookup_insert_ne by done.
    by rewrite (P1 d Hd).
  - intros d p c Hm. rewrite resolve_cons.
    destruct (decide (d = Reset.newAppDir)) as [-> | Hne].
    + rewrite lookup_insert_eq. intros Hw%walk_blankApp.
      destruct Hm as (_ & _ & Hi & Hl). by destruct Hw as [[_ ->] | [_ ->]].
    + rewrite lookup_insert_ne by done. destruct Hm as (Hd & _).
      by rewrite (P1 d Hd).
Qed.

Lemma template_unobstructed : Reset.unobstructed ∅ Reset.templateProject.
Proof.
  intros d n _ _. split; [done |]. split; [apply not_elem_of_empty |].
  split; [left; apply not_elem_of_empty |]. by destruct n.
Defined.

Lemma preserve_moves_markers_witness :
  Reset.preserve (Prompt.userInput "") = true
  ∧ Reset.unobstructed ∅ Reset.templateProject
  ∧ Reset.marker Reset.templateProject "hooks" ["marker.txt"] "H"
  ∧ Reset.succeeded (Reset.resetProject ∅ "" Reset.templateProject)
  ∧ Fs.resolve [Reset.exampleDir; "hooks"; "marker.txt"]
      (fst (Reset.resetProject ∅ "" Reset.templateProject)) = Some (Fs.File "H")
  ∧ Fs.resolve ["hooks"; "marker.txt"]
      (fst (Reset.resetProject ∅ "" Reset.templateProject)) ≠ Some (Fs.File "H").
Proof.
  destruct (preserve_moves_markers ∅ "" Reset.templateProject eq_refl
              template_unobstructed) as (Hok & Hreach & _ & Hgone).
  split; [reflexivity |]. split; [exact template_unobstructed |].
  split; [exact template_marker |]. split; [exact Hok |].
  destruct template_marker as (Hd & Hres & _).
  split; [exact (Hreach _ _ _ Hd Hres) |].
  exact (Hgone _ _ _ template_marker).
Defined.

Lemma archived_allSourcesPresent : Reset.allSourcesPresent Reset.archivedProject.
Proof.
  intros d Hd. unfold Reset.oldDirs in Hd. rewrite !elem_of_cons in Hd.
  destruct Hd as [-> | [-> | [-> | [-> | [-> | Hd]]]]];
    [eexists; reflexivity .. |].
  by apply elem_of_nil in Hd.
Qed.

(** C2 as stated fails: in a project that holds every source directory and
    an archive in which [components] is a directory with a file in it, the
    move of [components] onto that directory fails (the directory is not
    empty), the run halts, and the marker of [hooks] is still at its
    original path and not under the archive. *)
Lemma archive_collision_counterexample :
  Reset.allSourcesPresent Reset.archivedProject
  ∧ Reset.preserve (Prompt.userInput "y") = true
  ∧ Fs.resolve [Reset.exampleDir; "components"; "old.txt"] Reset.archivedProject
    = Some (Fs.File "old")
  ∧ Fs.resolve ["hooks"; "marker.txt"] Reset.archivedProject = Some (Fs.File "H")
  ∧ Fs.resolve [Reset.exampleDir; "hooks"; "marker.txt"]
      (fst (Reset.resetProject ∅ "y" Reset.archivedProject)) = None
  ∧ Fs.resolve ["hooks"; "marker.txt"]
      (fst (Reset.resetProject ∅ "y" Reset.archivedProject)) = Some (Fs.File "H").
Proof.
  split; [apply archived_allSourcesPresent |].
  repeat split; vm_compute; reflexivity.
Qed.

(** An empty directory in the archive is no obstacle: the move replaces
    it, and the run completes. *)
Lemma empty_archive_entry_is_replaced :
  Reset.succeeded
    (Reset.resetProject ∅ "y"
       (<[Reset.exampleDir := Fs.Directory (<["components" := Fs.Directory ∅]> ∅)]>
          Reset.templateProject))
  ∧ Fs.resolve [Reset.exampleDir; "components"; "marker.txt"]
      (fst (Reset.resetProject ∅ "y"
              (<[Reset.exampleDir := Fs.Directory (<["components" := Fs.Directory ∅]> ∅)]>
                 Reset.templateProject)))
    = Some (Fs.File "C").
Proof. split; vm_compute; reflexivity. Qed.

(** C4, as the code has it: when a move or a removal throws, the run ends
    with the tree exactly as the failed call left it (the steps completed
    before it are kept, the steps after it are not run), no replacement
    file is written (a file found in [app] afterwards was there before),
    the error is written to the operator, and the exit status stays zero:
    the handler only logs. *)
Theorem error_aborts_without_rollback
  (denied : gset string) (answer : string) (fs fs' : Fs.tree) (e : Fs.FsError) :
  Reset.processDirs denied Reset.oldDirs (Prompt.userInput answer) fs
  = (fs', Fs.Throw e) ->
  Reset.resetProject denied answer fs
  = (fs', {| Reset.stderr :=
               ["❌ Error during script execution: " +:+ Fs.message e];
             Reset.exitCode := 0 |})
  ∧ (∃ pre d rest fs1,
        Reset.oldDirs = (pre ++ d :: rest)%list
        ∧ Reset.processDirs denied pre (Prompt.userInput answer) fs
          = (fs1, Fs.Normal tt)
        ∧ Reset.processDir denied (Prompt.userInput answer) d fs1
          = (fs', Fs.Throw e)
        ∧ (∀ k, k ≠ Reset.exampleDir -> k ≠ d -> fs' !! k = fs1 !! k))
  ∧ (∀ f c, Fs.resolve [Reset.newAppDir; f] fs' = Some (Fs.File c) ->
            Fs.resolve [Reset.newAppDir; f] fs = Some (Fs.File c))
  ∧ ¬ Reset.succeeded (Reset.resetProject denied answer fs).
Proof.
  intros Hloop.
  rewrite (resetProject_throw denied answer fs fs' e Hloop), onError_started.
  split; [done |].
  destruct (forEach_throw_inv _ _ _ _ _ Hloop)
    as (pre & d & rest & fs1 & Hsplit & Hpre & Hd).
  destruct (processDir_throw_frame denied _ d fs1 fs' e Hd) as [Hframe Hown].
  split; [by exists pre, d, rest, fs1 |]. split; [| done].
  intros f c. rewrite !resolve_cons.
  destruct pre as [| x pre].
  - injection Hpre as <-. injection Hsplit as <- _.
    specialize (Hown ltac:(done) f c).
    change Reset.newAppDir with "app".
    destruct (fs' !! "app") as [n' |]; [| done].
    destruct (fs !! "app") as [n |]; simpl in Hown; intros H;
      specialize (Hown (f_equal Some H)); [| done].
    by injection Hown.
  - injection Hsplit as <- Hrest.
    assert (d ∈ ["components"; "hooks"; "constants"; "scripts"]) as Hin.
    { rewrite Hrest. apply elem_of_app. right. by left. }
    assert (d ≠ "app") as Hne.
    { intros ->. rewrite !elem_of_cons in Hin.
      destruct Hin as [? | [? | [? | [? | Hin]]]]; try done.
      by apply elem_of_nil in Hin. }
    rewrite (Hframe Reset.newAppDir) by done.
    rewrite (processDirs_clears denied ("app" :: pre) (Prompt.userInput answer)
               fs fs1 Reset.newAppDir); [done | | by left | exact Hpre].
    pose proof oldDirs_exampleDir as Hex. unfold Reset.oldDirs in Hex.
    rewrite Hrest in Hex.
    apply not_elem_of_cons in Hex as [Hne' Hex].
    apply not_elem_of_app in Hex as [Hex _].
    by apply not_elem_of_cons.
Qed.

Lemma error_aborts_without_rollback_witness :
  Reset.processDirs ∅ Reset.oldDirs (Prompt.userInput "y") Reset.archivedProject
  = (fst (Reset.processDirs ∅ Reset.oldDirs "y" Reset.archivedProject),
     Fs.Throw {| Fs.cause := Fs.ENOTEMPTY; Fs.syscall := "rename";
                 Fs.path := "components";
                 Fs.target := Some "app-example/components" |})
  ∧ Reset.exitCode (snd (Reset.resetProject ∅ "y" Reset.archivedProject)) = 0%Z
  ∧ Fs.resolve [Reset.newAppDir; Reset.indexFile]
      (fst (Reset.resetProject ∅ "y" Reset.archivedProject)) = None
  ∧ Fs.resolve [Reset.exampleDir; "app"; "marker.txt"]
      (fst (Reset.resetProject ∅ "y" Reset.archivedProject)) = Some (Fs.File "A").
Proof.
  assert (Reset.processDirs ∅ Reset.oldDirs (Prompt.userInput "y") Reset.archivedProject
          = (fst (Reset.processDirs ∅ Reset.oldDirs "y" Reset.archivedProject),
             Fs.Throw {| Fs.cause := Fs.ENOTEMPTY; Fs.syscall := "rename";
                         Fs.path := "components";
                         Fs.target := Some "app-example/components" |})) as Hthrow
    by (vm_compute; reflexivity).
  destruct (error_aborts_without_rollback ∅ "y" Reset.archivedProject _ _ Hthrow)
    as (Hrun & _).
  split; [exact Hthrow |]. rewrite Hrun.
  split; [reflexivity |]. split; vm_compute; reflexivity.
Defined.

(** C4 as stated fails on the exit status: with [hooks] read-only and
    delete chosen, the removal of [hooks] throws, the run reports one line
    and leaves [hooks] and the directories after it in place, and it ends
    with status zero. *)
Lemma exit_status_counterexample :
  Reset.exitCode (snd (Reset.resetProject {["hooks"]} "n" Reset.templateProject))
  = 0%Z
  ∧ length (Reset.stderr
              (snd (Reset.resetProject {["hooks"]} "n" Reset.templateProject))) = 1
  ∧ snd (Reset.processDirs {["hooks"]} Reset.oldDirs "n" Reset.templateProject)
    = Fs.Throw {| Fs.cause := Fs.EACCES; Fs.syscall := "unlink";
                  Fs.path := "hooks/marker.txt"; Fs.target := None |}
  ∧ fst (Reset.resetProject {["hooks"]} "n" Reset.templateProject) !! "app" = None
  ∧ Fs.resolve ["hooks"; "marker.txt"]
      (fst (Reset.resetProject {["hooks"]} "n" Reset.templateProject))
    = Some (Fs.File "H").
Proof. repeat split; vm_compute; reflexivity. Qed.

(** C7, as the code has it: when the loop over the source set completes
    without error, it completes in every order of the list and leaves the
    same tree, whatever the choice; and conversely. *)
Theorem order_is_irrelevant_without_error
  (denied : gset string) (userInput : string) (l : list string)
  (fs fs' : Fs.tree) :
  Reset.oldDirs ≡ₚ l ->
  Reset.processDirs denied Reset.oldDirs userInput fs = (fs', Fs.Normal tt)
  <-> Reset.processDirs denied l userInput fs = (fs', Fs.Normal tt).
Proof.
  intros Hperm. split.
  - apply (processDirs_Permutation denied _ _ userInput Hperm oldDirs_exampleDir).
  - apply (processDirs_Permutation denied _ _ userInput (symmetry Hperm)).
    rewrite <- Hperm. apply oldDirs_exampleDir.
Qed.

Lemma componentsFirst_Permutation : Reset.oldDirs ≡ₚ Reset.componentsFirst.
Proof. apply perm_swap. Defined.

Lemma order_is_irrelevant_without_error_witness :
  Reset.oldDirs ≡ₚ Reset.componentsFirst
  ∧ Reset.processDirs ∅ Reset.componentsFirst "y" Reset.templateProject
    = (fst (Reset.processDirs ∅ Reset.oldDirs "y" Reset.templateProject),
       Fs.Normal tt).
Proof.
  split; [exact componentsFirst_Permutation |].
  apply (order_is_irrelevant_without_error ∅ "y" Reset.componentsFirst
           Reset.templateProject _ componentsFirst_Permutation).
  vm_compute. reflexivity.
Defined.

(** C7 as stated fails: when a move throws, the tree left depends on the
    order.  With [components] taken in the archive by a directory that is
    not empty, the declared order has moved [app] before it halts; with
    [components] first, [app] is still in place. *)
Lemma order_matters_on_error_counterexample :
  Reset.oldDirs ≡ₚ Reset.componentsFirst
  ∧ fst (Reset.processDirs ∅ Reset.oldDirs "y" Reset.archivedProject) !! "app"
    = None
  ∧ fst (Reset.processDirs ∅ Reset.componentsFirst "y" Reset.archivedProject) !! "app"
    = Some (Fs.Directory (<["marker.txt" := Fs.File "A"]> ∅))
  ∧ snd (Reset.processDirs ∅ Reset.componentsFirst "y" Reset.archivedProject)
    = Fs.Throw {| Fs.cause := Fs.ENOTEMPTY; Fs.syscall := "rename";
                  Fs.path := "components";
                  Fs.target := Some "app-example/components" |}.
Proof.
  split; [exact componentsFirst_Permutation |].
  repeat split; vm_compute; reflexivity.
Qed.

(** * Further properties of the code *)

(** ** The normal form of the confirmation line *)

Section NormalForm.
Import JS.

Lemma toLowerChar_idem c : toLowerChar (toLowerChar c) = toLowerChar c.
Proof.
  destruct (isUpper c) eqn:Hu.
  - unfold toLowerChar at 1.
    by rewrite (isUpper_shifted c (toLowerChar c) Hu (code_toLowerChar_upper c Hu)).
  - unfold toLowerChar. by rewrite Hu, Hu.
Qed.

Lemma toLowerCase_idem s : toLowerCase (toLowerCase s) = toLowerCase s.
Proof.
  induction s as [| c s IH]; simpl; [done |].
  by rewrite toLowerChar_idem, IH.
Qed.

Lemma toLowerCase_empty s : toLowerCase s = EmptyString -> s = EmptyString.
Proof. by destruct s. Qed.

Lemma trimStart_idem s : trimStart (trimStart s) = trimStart s.
Proof.
  induction s as [| c s IH]; simpl; [done |].
  destruct (isWhiteSpace c) eqn:Hc; [done |]. simpl. by rewrite Hc.
Qed.

Lemma trimEnd_idem s : trimEnd (trimEnd s) = trimEnd s.
Proof.
  induction s as [| c s IH]; simpl; [done |].
  destruct (trimEnd s) as [| d t] eqn:Ht.
  - destruct (isWhiteSpace c) eqn:Hc; simpl; [done |]. by rewrite Hc.
  - change (trimEnd (String c (String d t))) with
      (match trimEnd (String d t) with
       | EmptyString => if isWhiteSpace c then EmptyString else String c EmptyString
       | u => String c u
       end).
    by rewrite IH.
Qed.

(** Trimming the end keeps a first code unit that is not white space. *)
Lemma trimStart_trimEnd s : trimStart s = s -> trimStart (trimEnd s) = trimEnd s.
Proof.
  destruct s as [| c s]; simpl; [done |].
  destruct (isWhiteSpace c) eqn:Hc.
  - intros H. exfalso.
    assert (String.length (trimStart s) <= String.length s) as Hle.
    { clear. induction s as [| d s IH]; simpl; [done |].
      destruct (isWhiteSpace d); simpl; lia. }
    rewrite H in Hle. simpl in Hle. lia.
  - intros _. destruct (trimEnd s); simpl; by rewrite Hc.
Qed.

Lemma trim_idem s : trim (trim s) = trim s.
Proof.
  unfold trim.
  by rewrite (trimStart_trimEnd _ (trimStart_idem s)), trimEnd_idem.
Qed.

Lemma trimEnd_empty s : trimEnd s = EmptyString -> blank s = true.
Proof.
  induction s as [| c s IH]; simpl; [done |].
  destruct (trimEnd s); [| done].
  destruct (isWhiteSpace c); [| done]. intros _. by apply IH.
Qed.

Lemma blank_trimStart s : blank (trimStart s) = true -> blank s = true.
Proof.
  induction s as [| c s IH]; simpl; [done |].
  destruct (isWhiteSpace c) eqn:Hc; simpl; [done |]. by rewrite Hc.
Qed.

Lemma trim_empty s : trim s = EmptyString <-> blank s = true.
Proof.
  unfold trim. split.
  - intros H. by apply blank_trimStart, trimEnd_empty.
  - intros H. by rewrite (trimStart_blank s H).
Qed.

Lemma toLowerChar_y c : toLowerChar c = "y"%char <-> c = "y"%char ∨ c = "Y"%char.
Proof.
  split.
  - intros H. destruct (isUpper c) eqn:Hu.
    + right. apply code_inj.
      pose proof (code_toLowerChar_upper c Hu) as Hc. rewrite H in Hc.
      change (code "y") with 121%N in Hc. change (code "Y") with 89%N. lia.
    + left. unfold toLowerChar in H. by rewrite Hu in H.
  - by intros [-> | ->].
Qed.

Lemma toLowerCase_y s : toLowerCase s = "y" <-> s = "y" ∨ s = "Y".
Proof.
  split.
  - destruct s as [| c [| d s]]; simpl; [done | | done].
    intros [= [-> | ->]%toLowerChar_y]; [by left | by right].
  - by intros [-> | ->].
Qed.

End NormalForm.

(** X1: [userInput] is always in normal form: it is never empty, carries no
    white space at either end and no capital letter; interpreting it again
    changes nothing. *)
Theorem userInput_normal_form (answer : string) :
  JS.truthy (Prompt.userInput answer) = true
  ∧ JS.trim (Prompt.userInput answer) = Prompt.userInput answer
  ∧ JS.toLowerCase (Prompt.userInput answer) = Prompt.userInput answer
  ∧ Prompt.userInput (Prompt.userInput answer) = Prompt.userInput answer.
Proof.
  assert (∀ u, JS.truthy u = true -> JS.trim u = u -> JS.toLowerCase u = u ->
               Prompt.userInput u = u) as Hfix.
  { intros u Ht Htrim Hlow. unfold Prompt.userInput, JS.or_else.
    by rewrite Htrim, Hlow, Ht. }
  unfold Prompt.userInput at 1 2 3 4 5 6, JS.or_else.
  destruct (JS.truthy (JS.toLowerCase (JS.trim answer))) eqn:Ht.
  - assert (JS.trim (JS.toLowerCase (JS.trim answer))
            = JS.toLowerCase (JS.trim answer)) as Htrim
      by (by rewrite <- toLowerCase_trim, trim_idem).
    split; [done |]. split; [done |]. split; [apply toLowerCase_idem |].
    unfold Prompt.userInput, JS.or_else. rewrite Ht.
    apply Hfix; [done | done | apply toLowerCase_idem].
  - split; [done |]. split; [done |]. split; [done |].
    unfold Prompt.userInput, JS.or_else. rewrite Ht. reflexivity.
Qed.

(** X2: the lines that count as affirmative are exactly the blank lines
    and the lines that are [y] or [Y] once trimmed. *)
Theorem userInput_affirmative_iff (answer : string) :
  Prompt.userInput answer = "y"
  <-> JS.blank answer = true ∨ JS.trim answer = "y" ∨ JS.trim answer = "Y".
Proof.
  unfold Prompt.userInput, JS.or_else.
  destruct (JS.toLowerCase (JS.trim answer)) as [| c t] eqn:Hl.
  - apply toLowerCase_empty in Hl. simpl. split; [| done].
    intros _. left. by apply trim_empty.
  - cbn [JS.truthy]. rewrite <- Hl. rewrite toLowerCase_y. split.
    + intros H. by right.
    + intros [Hb | H]; [| done]. apply trim_empty in Hb.
      rewrite Hb in Hl. discriminate.
Qed.

(** ** The theming hooks, continued *)

(** X4: [useThemeColor] never returns the empty string: an empty override
    is skipped, and every entry of [Colors] is a colour. *)
Theorem useThemeColor_never_empty (rn : option Theme.ColorScheme)
  (props : Theme.ThemeProps) (name : Theme.ColorName) :
  JS.truthy (Theme.useThemeColor rn props name) = true.
Proof.
  unfold Theme.useThemeColor.
  assert (∀ t, JS.truthy (Theme.Colors t name) = true) as Htable
    by (intros []; by destruct name).
  destruct (Theme.prop props (Theme.themeOf rn)) as [c |]; [| apply Htable].
  destruct (JS.truthy c) eqn:Hc; [done | apply Htable].
Qed.

(** ** Regular expressions *)

Section RegExpFacts.
Import RegExp.

Lemma append_nil_r s : s +:+ EmptyString = s.
Proof. induction s as [| c s IH]; [done |]. change (String c (s +:+ "") = String c s). by rewrite IH. Qed.

Lemma append_cons c s t : String c s +:+ t = String c (s +:+ t).
Proof. done. Qed.

Lemma append_assoc s t u : (s +:+ t) +:+ u = s +:+ t +:+ u.
Proof.
  induction s as [| c s IH]; [done |].
  rewrite !append_cons. by rewrite IH.
Qed.

Lemma append_empty s t : s +:+ t = EmptyString -> s = EmptyString ∧ t = EmptyString.
Proof. destruct s; [done |]. by rewrite append_cons. Qed.

Lemma nullable_Matches r : nullable r = true <-> Matches r EmptyString.
Proof.
  split.
  - induction r as [| | p | r IHr s IHs | r IHr s IHs | r IHr]; simpl; try done.
    + intros _. constructor.
    + intros [Hr Hs]%andb_true_iff.
      change EmptyString with (EmptyString +:+ EmptyString). constructor; auto.
    + intros [Hr | Hs]%orb_true_iff;
        [apply Matches_AltL | apply Matches_AltR]; auto.
    + intros _. constructor.
  - intros H. remember EmptyString as w eqn:Hw.
    induction H as [| p c Hc | r s u v Hu IHu Hv IHv | r s u Hu IHu
                    | r s u Hu IHu | r | r u v Hu IHu Hv IHv]; simpl; try done.
    + apply append_empty in Hw as [-> ->]. by rewrite IHu, IHv.
    + by rewrite IHu.
    + rewrite IHu by done. apply orb_true_r.
Qed.

Lemma derive_sound c r : ∀ w, Matches (derive c r) w -> Matches r (String c w).
Proof.
  induction r as [| | p | r IHr s IHs | r IHr s IHs | r IHr]; simpl; intros w H.
  - inversion H.
  - inversion H.
  - destruct (p c) eqn:Hc; inversion H; subst. by constructor.
  - assert (∀ w, Matches (Seq (derive c r) s) w -> Matches (Seq r s) (String c w))
      as Hseq.
    { intros w' H'. inversion H' as [| | r' s' u v Hu Hv | | | |]; subst.
      rewrite <- append_cons. constructor; auto. }
    destruct (nullable r) eqn:Hn; [| by apply Hseq].
    inversion H as [| | | r' s' u Hu | r' s' u Hu | |]; subst.
    + by apply Hseq.
    + change (String c w) with (EmptyString +:+ String c w).
      constructor; [by apply nullable_Matches | auto].
  - inversion H as [| | | r' s' u Hu | r' s' u Hu | |]; subst;
      [apply Matches_AltL | apply Matches_AltR]; auto.
  - inversion H as [| | r' s' u v Hu Hv | | | |]; subst.
    rewrite <- append_cons. constructor; auto.
Qed.

Lemma derive_complete c r w : Matches r (String c w) -> Matches (derive c r) w.
Proof.
  intros H. remember (String c w) as x eqn:Hx. revert w Hx.
  induction H as [| p d Hd | r s u v Hu IHu Hv IHv | r s u Hu IHu
                  | r s u Hu IHu | r | r u v Hu IHu Hv IHv]; intros w Hx.
  - done.
  - injection Hx as -> <-. simpl. rewrite Hd. constructor.
  - simpl. destruct u as [| d u].
    + apply nullable_Matches in Hu. rewrite Hu.
      apply Matches_AltR. by apply IHv.
    + rewrite append_cons in Hx. injection Hx as -> <-.
      assert (Matches (Seq (derive c r) s) (u +:+ v)) as Hseq
        by (constructor; auto).
      destruct (nullable r); [by apply Matches_AltL | done].
  - simpl. apply Matches_AltL. by apply IHu.
  - simpl. apply Matches_AltR. by apply IHu.
  - done.
  - destruct u as [| d u].
    + by apply IHv.
    + rewrite append_cons in Hx. injection Hx as -> <-.
      simpl. constructor; auto.
Qed.

(** [test] decides the language of the pattern. *)
Lemma test_Matches r s : test r s = true <-> Matches r s.
Proof.
  revert r. induction s as [| c s IH]; intros r; simpl.
  - apply nullable_Matches.
  - rewrite IH. split; [apply derive_sound | apply derive_complete].
Qed.

Lemma Matches_Seq_iff r s w :
  Matches (Seq r s) w <-> ∃ u v, w = u +:+ v ∧ Matches r u ∧ Matches s v.
Proof.
  split.
  - intros H. inversion H as [| | r' s' u v Hu Hv | | | |]; subst. by exists u, v.
  - intros (u & v & -> & Hu & Hv). by constructor.
Qed.

Lemma Matches_Class_iff p w :
  Matches (Class p) w <-> ∃ c, w = String c EmptyString ∧ p c = true.
Proof.
  split.
  - intros H. inversion H; subst. by eexists.
  - intros (c & -> & Hc). by constructor.
Qed.

Lemma Matches_Lit_iff c w : Matches (Lit c) w <-> w = String c EmptyString.
Proof.
  unfold Lit. rewrite Matches_Class_iff. split.
  - intros (d & -> & Hd). apply Ascii.eqb_eq in Hd. by subst.
  - intros ->. exists c. split; [done |]. apply Ascii.eqb_refl.
Qed.

Lemma Matches_Star_Class p w :
  Matches (Star (Class p)) w <-> Forms.allOf p w = true.
Proof.
  split.
  - intros H. remember (Star (Class p)) as r eqn:Hr.
    induction H as [| | | | | | r u v Hu _ Hv IHv]; try done.
    injection Hr as ->. apply Matches_Class_iff in Hu as (c & -> & Hc).
    rewrite append_cons. simpl. rewrite Hc. by apply IHv.
  - induction w as [| c w IH]; simpl; [intros _; constructor |].
    intros [Hc Hw]%andb_true_iff.
    change (String c w) with (String c EmptyString +:+ w).
    constructor; [by constructor | by apply IH].
Qed.

Lemma Matches_Plus_Class p w :
  Matches (Plus (Class p)) w <-> JS.truthy w = true ∧ Forms.allOf p w = true.
Proof.
  unfold Plus. rewrite Matches_Seq_iff. split.
  - intros (u & v & -> & (c & -> & Hc)%Matches_Class_iff & Hv%Matches_Star_Class).
    rewrite append_cons. simpl. by rewrite Hc.
  - destruct w as [| c w]; simpl; [by intros [? _] |].
    intros [_ [Hc Hw]%andb_true_iff].
    exists (String c EmptyString), w. split; [done |].
    split; [by constructor | by apply Matches_Star_Class].
Qed.

End RegExpFacts.

(** ** [validateEmail] and [LoginForm] *)

Section EmailFacts.
Import Forms.

Lemma word_iff w :
  word w = true <-> JS.truthy w = true ∧ allOf notSpaceNorAt w = true.
Proof. unfold word. apply andb_true_iff. Qed.

Lemma allOf_app p s t : allOf p (s +:+ t) = allOf p s && allOf p t.
Proof.
  induction s as [| c s IH]; [done |].
  rewrite append_cons. simpl. by rewrite IH, andb_assoc.
Qed.

Lemma occurrences_app c s t :
  occurrences c (s +:+ t) = occurrences c s + occurrences c t.
Proof.
  induction s as [| d s IH]; [done |].
  rewrite append_cons. simpl. rewrite IH. lia.
Qed.

Lemma length_app s t :
  String.length (s +:+ t) = String.length s + String.length t.
Proof.
  induction s as [| d s IH]; [done |].
  rewrite append_cons. simpl. by rewrite IH.
Qed.

Lemma allOf_weaken (p q : ascii -> bool) s :
  (∀ c, p c = true -> q c = true) -> allOf p s = true -> allOf q s = true.
Proof.
  intros Hpq. induction s as [| c s IH]; simpl; [done |].
  intros [Hc Hs]%andb_true_iff. by rewrite (Hpq c Hc), IH.
Qed.

Lemma occurrences_cons c d s :
  occurrences c (String d s) = (if Ascii.eqb c d then 1 else 0) + occurrences c s.
Proof. done. Qed.

Lemma allOf_cons p c s : allOf p (String c s) = p c && allOf p s.
Proof. done. Qed.

Lemma allOf_no_at s : allOf notSpaceNorAt s = true -> occurrences "@" s = 0.
Proof.
  induction s as [| c s IH]; [done |].
  rewrite allOf_cons, occurrences_cons.
  intros [Hc Hs]%andb_true_iff. rewrite (IH Hs).
  unfold notSpaceNorAt in Hc. apply negb_true_iff, orb_false_iff in Hc as [_ Hc].
  rewrite Ascii.eqb_sym in Hc. by rewrite Hc.
Qed.

Lemma truthy_length s : JS.truthy s = true -> 1 <= String.length s.
Proof. destruct s; simpl; [done | lia]. Qed.

Lemma notSpaceNorAt_notSpace c :
  notSpaceNorAt c = true -> negb (JS.isWhiteSpace c) = true.
Proof.
  unfold notSpaceNorAt. intros [H _]%negb_true_iff%orb_false_iff. by rewrite H.
Qed.

(** The shape of the strings the pattern matches. *)
Lemma validateEmail_shape s :
  validateEmail s = true <->
  ∃ l d t, s = l +:+ "@" +:+ d +:+ "." +:+ t
           ∧ word l = true ∧ word d = true ∧ word t = true.
Proof.
  unfold validateEmail, emailRegex. rewrite test_Matches. split.
  - intros (l & x1 & -> & Hl%Matches_Plus_Class
              & (a & x2 & -> & ->%Matches_Lit_iff
                 & (d & x3 & -> & Hd%Matches_Plus_Class
                    & (b & t & -> & ->%Matches_Lit_iff
                       & Ht%Matches_Plus_Class)%Matches_Seq_iff)%Matches_Seq_iff)
                %Matches_Seq_iff)%Matches_Seq_iff.
    exists l, d, t. by rewrite !word_iff.
  - intros (l & d & t & -> & Hl%word_iff & Hd%word_iff & Ht%word_iff).
    apply Matches_Seq_iff. exists l, ("@" +:+ d +:+ "." +:+ t).
    split; [done |]. split; [by apply Matches_Plus_Class |].
    apply Matches_Seq_iff. exists "@", (d +:+ "." +:+ t).
    split; [done |]. split; [by apply Matches_Lit_iff |].
    apply Matches_Seq_iff. exists d, ("." +:+ t).
    split; [done |]. split; [by apply Matches_Plus_Class |].
    apply Matches_Seq_iff. exists ".", t.
    split; [done |]. split; [by apply Matches_Lit_iff |].
    by apply Matches_Plus_Class.
Qed.

Lemma typed_snoc texts text :
  typed (texts ++ [text]) = handleEmailChange text (typed texts).
Proof. unfold typed. by rewrite foldl_app. Qed.

End EmailFacts.

(** X5: [validateEmail] accepts exactly the strings made of a local part,
    an at sign, and a domain that is two parts around a dot, where each of
    the three parts is non-empty and free of white space and at signs. *)
Theorem validateEmail_iff (email : string) :
  Forms.validateEmail email = true <->
  ∃ l d t, email = l +:+ "@" +:+ d +:+ "." +:+ t
           ∧ Forms.word l = true ∧ Forms.word d = true ∧ Forms.word t = true.
Proof. apply validateEmail_shape. Qed.

(** X6: an address that [validateEmail] accepts holds no white space
    anywhere (nothing is trimmed), exactly one at sign, and at least five
    code units. *)
Theorem validateEmail_accepts_only (email : string) :
  Forms.validateEmail email = true ->
  Forms.allOf (fun c => negb (JS.isWhiteSpace c)) email = true
  ∧ Forms.occurrences "@" email = 1
  ∧ 5 <= String.length email.
Proof.
  intros (l & d & t & -> & [Hl1 Hl2]%word_iff & [Hd1 Hd2]%word_iff
            & [Ht1 Ht2]%word_iff)%validateEmail_shape.
  split; [| split].
  - rewrite !allOf_app.
    rewrite (allOf_weaken _ _ l notSpaceNorAt_notSpace Hl2).
    rewrite (allOf_weaken _ _ d notSpaceNorAt_notSpace Hd2).
    rewrite (allOf_weaken _ _ t notSpaceNorAt_notSpace Ht2). reflexivity.
  - rewrite !occurrences_app.
    rewrite (allOf_no_at l Hl2), (allOf_no_at d Hd2), (allOf_no_at t Ht2).
    reflexivity.
  - rewrite !length_app.
    apply truthy_length in Hl1, Hd1, Ht1. simpl. lia.
Qed.

Lemma validateEmail_accepts_only_witness :
  Forms.validateEmail "a@b.c" = true
  ∧ Forms.occurrences "@" "a@b.c" = 1
  ∧ 5 <= String.length "a@b.c".
Proof.
  destruct (validateEmail_accepts_only "a@b.c" eq_refl) as (_ & Hat & Hlen).
  split; [reflexivity |]. split; [exact Hat | exact Hlen].
Defined.

(** X7: after every edit the form shows the last text and flags it exactly
    when [validateEmail] rejects it.  The untouched form is different: its
    empty field is not flagged although [validateEmail] rejects the empty
    string, while a field emptied by an edit is flagged. *)
Theorem loginForm_tracks_validation (texts : list string) (text : string) :
  Forms.email (Forms.typed (texts ++ [text])) = text
  ∧ Forms.isValid (Forms.typed (texts ++ [text])) = Forms.validateEmail text
  ∧ Forms.inputError (Forms.typed (texts ++ [text]))
    = negb (Forms.validateEmail text)
  ∧ Forms.inputError (Forms.typed []) = false
  ∧ Forms.validateEmail (Forms.email (Forms.typed [])) = false
  ∧ Forms.inputError (Forms.typed (texts ++ [EmptyString])) = true.
Proof.
  rewrite !typed_snoc. repeat split; reflexivity.
Qed.

(** ** Token storage and [AuthProvider] *)

(** X8: the token helpers round-trip through the store and touch no other
    key: a stored token is the one read back, the last one stored wins, a
    removed token reads as [null], and the items under other keys are as
    before. *)
Theorem token_round_trip (store : gmap string string) (token older key : string) :
  Auth.getToken (Auth.storeToken token store) = Some token
  ∧ Auth.getToken (Auth.storeToken token (Auth.storeToken older store)) = Some token
  ∧ Auth.getToken (Auth.removeToken (Auth.storeToken token store)) = None
  ∧ (key ≠ "userToken" ->
     Auth.getItemAsync key (Auth.storeToken token store) = Auth.getItemAsync key store
     ∧ Auth.getItemAsync key (Auth.removeToken store) = Auth.getItemAsync key store).
Proof.
  unfold Auth.getToken, Auth.storeToken, Auth.removeToken, Auth.getItemAsync,
    Auth.setItemAsync, Auth.deleteItemAsync.
  split; [by rewrite lookup_insert_eq |].
  split; [by rewrite lookup_insert_eq |].
  split; [by rewrite lookup_delete_eq |].
  intros Hkey. by rewrite lookup_insert_ne, lookup_delete_ne.
Qed.

(** X10: after [signOut], a new [checkAuthState] finds no token: it never
    calls the backend, the user stays [null] and nothing is logged,
    whatever the backend would have answered. *)
Theorem signOut_then_check {User Failure : Type}
  (validateToken : string -> option User + Failure)
  (p : Auth.Provider User Failure) :
  Auth.getToken (Auth.store _ _ (Auth.signOut _ _ p)) = None
  ∧ Auth.checkAuthState _ _ validateToken (Auth.signOut _ _ p)
    = {| Auth.user := None; Auth.isLoading := false;
         Auth.store := Auth.removeToken (Auth.store _ _ p);
         Auth.failures := Auth.failures _ _ p |}.
Proof.
  assert (Auth.getToken (Auth.store _ _ (Auth.signOut _ _ p)) = None) as Hnone.
  { simpl. unfold Auth.getToken, Auth.removeToken, Auth.getItemAsync,
      Auth.deleteItemAsync. apply lookup_delete_eq. }
  split; [exact Hnone |]. unfold Auth.checkAuthState. by rewrite Hnone.
Qed.

(** X11: a token stored before the application is started again restores
    the session: when it is non-empty and the backend resolves it, the
    first [checkAuthState] sets the user to the answer and clears
    [isLoading]. *)
Theorem stored_token_restores_user {User Failure : Type}
  (validateToken : string -> option User + Failure)
  (s : gmap string string) (token : string) (userData : option User) :
  token ≠ EmptyString ->
  validateToken token = inl userData ->
  Auth.checkAuthState _ _ validateToken
    (Auth.mounted _ _ (Auth.storeToken token s))
  = {| Auth.user := userData; Auth.isLoading := false;
       Auth.store := Auth.storeToken token s; Auth.failures := [] |}.
Proof.
  intros Hne Hv. unfold Auth.checkAuthState. simpl.
  assert (Auth.getToken (Auth.storeToken token s) = Some token) as ->.
  { unfold Auth.getToken, Auth.storeToken, Auth.getItemAsync, Auth.setItemAsync.
    apply lookup_insert_eq. }
  destruct token; [done |]. simpl. by rewrite Hv.
Qed.

Lemma stored_token_restores_user_witness :
  "t0" ≠ EmptyString
  ∧ Auth.checkAuthState string unit (fun t => inl (Some t))
      (Auth.mounted _ _ (Auth.storeToken "t0" ∅))
    = {| Auth.user := Some "t0"; Auth.isLoading := false;
         Auth.store := Auth.storeToken "t0" ∅; Auth.failures := [] |}.
Proof.
  assert ("t0" ≠ EmptyString) as Hne by discriminate.
  split; [exact Hne |].
  exact (stored_token_restores_user (fun t => inl (Some t)) ∅ "t0" (Some "t0")
           Hne eq_refl).
Defined.

(** ** [useUserData] and [UserProfile] *)

Section FetchFacts.
Import UserData.
Context {User Failure : Type}.

Lemma fetched_snoc (outcomes : list (Outcome User Failure)) o :
  fetched User Failure (outcomes ++ [o])
  = fetchUser User Failure o (fetched User Failure outcomes).
Proof. unfold fetched. by rewrite foldl_app. Qed.

Lemma fetchUser_cells (o : Outcome User Failure) c :
  loading _ _ (fetchUser _ _ o c) = false
  ∧ user _ _ (fetchUser _ _ o c)
    = match o with inl u => Some u | inr _ => user _ _ c end
  ∧ error _ _ (fetchUser _ _ o c)
    = match o with inl _ => error _ _ c | inr e => Some e end.
Proof. by destruct o. Qed.


(** An error, once recorded, stays recorded. *)
Lemma fetched_error_sticky (before after : list (Outcome User Failure)) e :
  ∃ e', error _ _ (fetched _ _ (before ++ inr e :: after)) = Some e'
        ∧ ((∀ o, o ∈ after -> ∃ u, o = inl u) -> e' = e).
Proof.
  induction after as [| o after IH] using rev_ind.
  { exists e. rewrite fetched_snoc.
    by destruct (fetchUser_cells (inr e) (fetched _ _ before)) as (_ & _ & ->). }
  destruct IH as (e1 & Herr & Hlast).
  replace (before ++ inr e :: after ++ [o])%list
    with ((before ++ inr e :: after) ++ [o])%list by (by rewrite <- app_assoc).
  rewrite fetched_snoc.
  destruct (fetchUser_cells o (fetched _ _ (before ++ inr e :: after)))
    as (_ & _ & ->).
  destruct o as [u | e2].
  - exists e1. split; [done |]. intros Hall. apply Hlast.
    intros o Ho. apply Hall. apply elem_of_app. by left.
  - exists e2. split; [done |]. intros Hall.
    destruct (Hall (inr e2)) as [u Hu]; [| done].
    apply elem_of_app. right. by apply list_elem_of_singleton.
Qed.

End FetchFacts.


(** X13: an error is never cleared: once one call has been rejected,
    [UserProfile] shows [ErrorMessage] after every later fetch, also when
    all the later calls resolve, in which case it still shows that first
    rejection. *)
Theorem userProfile_error_is_sticky {User Failure : Type}
  (before after : list (UserData.Outcome User Failure)) (e : Failure) :
  ∃ e', UserData.UserProfile _ _
          (UserData.fetched _ _ (before ++ inr e :: after))
        = UserData.ErrorMessage _ _ e'
        ∧ ((∀ o, o ∈ after -> ∃ u, o = inl u) -> e' = e).
Proof.
  destruct (fetched_error_sticky before after e) as (e' & Herr & Hlast).
  exists e'. split; [| done].
  unfold UserData.UserProfile. rewrite Herr.
  assert (UserData.loading _ _
            (UserData.fetched _ _ (before ++ inr e :: after)) = false) as ->;
    [| done].
  destruct (exists_last (l := (before ++ inr e :: after)%list)) as (init & o & ->).
  { by destruct before. }
  rewrite fetched_snoc. by destruct o.
Qed.

(** ** [getItemLayout] *)

(** The products are those of doubles: exact up to [2^53], rounded to the
    nearest double beyond, infinite past the largest double. *)
Lemma getItemLayout_rounds :
  Lists.offset (Lists.getItemLayout [tt] 3) = Lists.Finite 240
  ∧ Lists.offset (Lists.getItemLayout [tt] (2 ^ 53 - 1))
    = Lists.Finite 720575940379279232
  ∧ (80 * (2 ^ 53 - 1) = 720575940379279280)%Z
  ∧ Lists.offset (Lists.getItemLayout [tt] (2 ^ 1020)) = Lists.Infinite false
  ∧ Lists.offset (Lists.getItemLayout [tt] (- 2 ^ 1020)) = Lists.Infinite true.
Proof. repeat split; vm_compute; reflexivity. Qed.

Lemma times_exact (a b : Z) :
  (Z.abs (a * b) <= 2 ^ 53)%Z -> Lists.times a b = Lists.Finite (a * b).
Proof.
  intros Hb. unfold Lists.times, Lists.toNumber, Lists.roundToDouble.
  destruct (Z.leb_spec (Z.abs (a * b)) (2 ^ 53)) as [_ | Hgt]; [| lia].
  assert (2 ^ 53 < 2 ^ 1024)%Z as Hpow by (vm_compute; reflexivity).
  destruct (Z.ltb_spec (Z.abs (a * b)) (2 ^ 1024)) as [_ | Hge]; [done | lia].
Qed.

(** X14: as long as the offsets stay within the integers a double holds
    exactly (up to [2^53] in magnitude), the layouts tile the scroll axis
    without gap or overlap: the offset of an item is its index times the
    item length, each item starts where the previous one ends, and a scroll
    position [y] lies in the item of index [i] exactly when [i] is [y]
    divided by the item length, rounded down. *)
Theorem getItemLayout_tiles {A : Type} (data : list A) (i y : Z) :
  (- 2 ^ 53 <= 80 * i)%Z ->
  (80 * (i + 1) <= 2 ^ 53)%Z ->
  Lists.offset (Lists.getItemLayout data i) = Lists.Finite (80 * i)
  ∧ Lists.offset (Lists.getItemLayout data (i + 1))
    = Lists.Finite (80 * i + Lists.length (Lists.getItemLayout data i))
  ∧ Lists.index (Lists.getItemLayout data i) = i
  ∧ (Lists.covers (Lists.getItemLayout data i) y <-> i = (y / 80)%Z).
Proof.
  intros Hlo Hhi.
  assert (Lists.times 80 i = Lists.Finite (80 * i)) as Hi
    by (apply times_exact; lia).
  assert (Lists.times 80 (i + 1) = Lists.Finite (80 * (i + 1))) as Hi1
    by (apply times_exact; lia).
  unfold Lists.covers. cbn [Lists.getItemLayout Lists.offset Lists.length Lists.index].
  rewrite Hi, Hi1. split; [done |]. split; [f_equal; lia |]. split; [done |].
  split.
  - intros Hy. apply (Z.div_unique y 80 i (y - 80 * i)); lia.
  - intros ->.
    pose proof (Z.div_mod y 80 ltac:(lia)) as Hdiv.
    pose proof (Z.mod_pos_bound y 80 ltac:(lia)) as Hmod. lia.
Qed.

Lemma getItemLayout_tiles_witness :
  (- 2 ^ 53 <= 80 * 3)%Z
  ∧ (80 * (3 + 1) <= 2 ^ 53)%Z
  ∧ Lists.offset (Lists.getItemLayout [tt] 3) = Lists.Finite 240
  ∧ Lists.offset (Lists.getItemLayout [tt] (3 + 1)) = Lists.Finite 320
  ∧ (Lists.covers (Lists.getItemLayout [tt] 3) 250 <-> 3%Z = (250 / 80)%Z).
Proof.
  assert (- 2 ^ 53 <= 80 * 3)%Z as Hlo by (vm_compute; discriminate).
  assert (80 * (3 + 1) <= 2 ^ 53)%Z as Hhi by (vm_compute; discriminate).
  destruct (getItemLayout_tiles [tt] 3 250 Hlo Hhi) as (H0 & H1 & _ & Hc).
  split; [exact Hlo |]. split; [exact Hhi |].
  split; [exact H0 |]. split; [exact H1 | exact Hc].
Defined.

(** ** [useLocation] *)

(** X15: once the clean-up function has run, no result reaches the state
    any more: whatever settles afterwards, [location] is what it was at
    the clean-up.  A position that settles while the hook is mounted is
    stored. *)
Theorem useLocation_ignores_late_results {Position Failure : Type}
  (h : Location.Hook Position Failure)
  (later : list (Location.Event Position Failure)) (result : Position) :
  Location.location Position Failure
    (Location.run Position Failure (Location.step Position Failure h (Location.CleanedUp Position Failure)) later)
  = Location.location Position Failure h
  ∧ Location.isMounted Position Failure
      (Location.run Position Failure (Location.step Position Failure h (Location.CleanedUp Position Failure)) later)
    = false
  ∧ Location.location Position Failure
      (Location.step Position Failure (Location.mounted Position Failure)
         (Location.Settled Position Failure (inl result)))
    = Some result.
Proof.
  assert (∀ g : Location.Hook Position Failure,
            Location.isMounted Position Failure g = false ->
            Location.location Position Failure
              (Location.run Position Failure g later)
            = Location.location Position Failure g
            ∧ Location.isMounted Position Failure
                (Location.run Position Failure g later) = false) as Hinv.
  { induction later as [| ev later IH]; intros g Hg; [done |].
    change (Location.run Position Failure g (ev :: later))
      with (Location.run Position Failure (Location.step Position Failure g ev) later).
    assert (Location.isMounted Position Failure (Location.step Position Failure g ev)
            = false
            ∧ Location.location Position Failure (Location.step Position Failure g ev)
              = Location.location Position Failure g) as [Hm Hl].
    { destruct ev as [[r | e] |]; simpl; by rewrite ?Hg. }
    rewrite <- Hl. by apply IH. }
  destruct (Hinv (Location.step Position Failure h
                    (Location.CleanedUp Position Failure)) eq_refl)
    as [Hloc Hm].
  split; [exact Hloc |]. split; [exact Hm | reflexivity].
Qed.
